(** * Typing test: the session engine and the React hook

    A shallow embedding of the two implementations of the typing game that the
    repository carries:

    - [Engine]: the class [TypingEngine] (TypingEngine.ts), with its state
      record, its timer handle, its two subscriber lists and its methods;
    - [Hook]: the React hook [useTyping] (src/hooks/use-typing.tsx), whose
      state updates are pure functions of the previous [IGame].

    Modelling conventions.
    - JavaScript numbers that index arrays or count things ([word], [letter],
      [counter], [timeLimit], the counters of [getResult]) are integers of [Z].
    - Numbers produced by a division ([wpm], [accuracy]) are values of
      [JS.number]: rationals extended with [NaN] and the two infinities; the
      sign of zero is not modelled. [JS.fdiv] and [JS.fmul] are the operators
      [/] and [*] of JavaScript: the exact result, rounded to binary64. The
      rate [wpm] chains three of them and is computed so. The percentage
      [accuracy] is one quotient of two counts, at most 100, under
      [Math.round]; the model keeps the exact quotient [JS.div] there, which
      gives the same integer as the rounded one for up to [2^40] marked
      slots ([accuracy_binary64]).
    - Strings are [string]; [text.split(" ")] and [word.split("")] are
      [split_space] and [split_chars].
    - Arrays are lists. [at_index] is the JavaScript read [a[i]], which gives
      [undefined] ([None]) out of range; reading a property of [undefined]
      raises [TypeError].
    - Subscribers are functions of a host world [W] that either return or
      throw a value of [E]; they observe the engine and do not call back into
      it. *)

From Stdlib Require Import ZArith QArith Qround Qabs Qpower Lia Lqa.
From Stdlib Require Import Ascii DecimalString DecimalZ.
From stdpp Require Import base list strings.

Local Open Scope Z_scope.

(** ** JavaScript numbers *)

Module JS.

Inductive number : Type :=
| Fin (q : Q)
| NaN
| PosInf
| NegInf.

Definition of_Z (z : Z) : number := Fin (inject_Z z).

Definition is_zero (q : Q) : bool := Qeq_bool q 0%Q.
Definition is_neg (q : Q) : bool := negb (Qle_bool 0%Q q).

(** The exact quotient of [a] by [b]. *)
Definition div (a b : number) : number :=
  match a, b with
  | NaN, _ | _, NaN => NaN
  | Fin x, Fin y =>
      if is_zero y then
        if is_zero x then NaN else if is_neg x then NegInf else PosInf
      else Fin (x / y)%Q
  | Fin _, (PosInf | NegInf) => Fin 0%Q
  | PosInf, Fin y => if is_neg y then NegInf else PosInf
  | NegInf, Fin y => if is_neg y then PosInf else NegInf
  | (PosInf | NegInf), (PosInf | NegInf) => NaN
  end.

(** The exact product of [a] and [b]. *)
Definition mul (a b : number) : number :=
  match a, b with
  | NaN, _ | _, NaN => NaN
  | Fin x, Fin y => Fin (x * y)%Q
  | Fin x, PosInf | PosInf, Fin x =>
      if is_zero x then NaN else if is_neg x then NegInf else PosInf
  | Fin x, NegInf | NegInf, Fin x =>
      if is_zero x then NaN else if is_neg x then PosInf else NegInf
  | PosInf, PosInf | NegInf, NegInf => PosInf
  | PosInf, NegInf | NegInf, PosInf => NegInf
  end.

(** *** binary64

    A finite binary64 number is [m * 2^e] with [m] an integer below [2^53]
    and [e] between -1074 and 971. *)

Definition pow2 (e : Z) : Q := (2 ^ e)%Q.

(** Nearest integer, a tie going to the even one. *)
Definition round_half_even (q : Q) : Z :=
  let f := Qfloor q in
  match (q - inject_Z f ?= 1 # 2)%Q with
  | Lt => f
  | Gt => f + 1
  | Eq => if Z.even f then f else f + 1
  end.

(** The exponent at which [a > 0] is rounded: the one that leaves 53
    significant bits, not below the least exponent. *)
Definition exponent (a : Q) : Z :=
  let k := Z.log2 (Qnum a) - Z.log2 (Zpos (Qden a)) - 52 in
  Z.max (-1074) (if Qle_bool (pow2 52) (a / pow2 k) then k else k - 1).

(** The binary64 number nearest to [q], a tie going to the even significand;
    past the largest one, an infinity. *)
Definition binary64 (q : Q) : number :=
  if Qeq_bool q 0 then Fin 0
  else
    let a := Qabs q in
    let e := exponent a in
    let y := (inject_Z (round_half_even (a / pow2 e)) * pow2 e)%Q in
    if Qle_bool (pow2 1024) y
    then (if Qle_bool 0 q then PosInf else NegInf)
    else Fin (if Qle_bool 0 q then y else - y).

Definition round64 (x : number) : number :=
  match x with
  | Fin q => binary64 q
  | _ => x
  end.

(** [a / b] *)
Definition fdiv (a b : number) : number := round64 (div a b).

(** [a * b] *)
Definition fmul (a b : number) : number := round64 (mul a b).

(** Nearest integer, a tie going to the larger one. *)
Definition round_half_up (q : Q) : Z := Qfloor (q + (1 # 2))%Q.

(** [Math.round(x)] *)
Definition round (x : number) : number :=
  match x with
  | Fin q => of_Z (round_half_up q)
  | _ => x
  end.

(** [x || 0] on numbers: [0] and [NaN] are falsy. *)
Definition or_zero (x : number) : number :=
  match x with
  | Fin q => if is_zero q then of_Z 0 else x
  | NaN => of_Z 0
  | _ => x
  end.

End JS.

(** ** Data model (the interfaces shared by both files) *)

Inductive Status : Type := Correct | Incorrect.

#[global] Instance Status_eq_dec : EqDecision Status.
Proof. solve_decision. Defined.

Record ILetterData : Type := mkLetter {
  letter : string;
  typed : bool;
  status : option Status;   (* [None] is [undefined] *)
}.

#[global] Instance ILetterData_eq_dec : EqDecision ILetterData.
Proof. solve_decision. Defined.

Module Coord.
Record ITextCoord : Type := mk { word : Z; letter : Z }.
End Coord.
Abbreviation ITextCoord := Coord.ITextCoord.

Record IGameResult : Type := mkResult {
  correct : Z;
  incorrect : Z;
  total : Z;
  wpm : JS.number;
  accuracy : JS.number;
}.

Record IGameState : Type := mkState {
  text : string;
  data : list (list ILetterData);
  timeLimit : option Z;     (* [None] is [undefined] *)
  counter : Z;
  isRunning : bool;
  isOver : bool;
  currentPos : ITextCoord;
}.

(** The hook calls the same record [IGame]. *)
Abbreviation IGame := IGameState.

Record KeyboardEvent : Type := mkKey {
  key : string;
  code : string;
}.

(** ** Arrays and strings *)

Definition len {A} (l : list A) : Z := Z.of_nat (length l).

(** [a[i]] *)
Definition at_index {A} (l : list A) (i : Z) : option A :=
  if decide (0 ≤ i) then l !! Z.to_nat i else None.

(** In-place update of the object stored at [a[i]], when there is one. *)
Definition alter_index {A} (f : A → A) (i : Z) (l : list A) : list A :=
  if decide (0 ≤ i) then alter f (Z.to_nat i) l else l.

(** [grid[i][j]] when [grid[i]] exists. *)
Definition slot_at (grid : list (list ILetterData)) (i j : Z) : option ILetterData :=
  match at_index grid i with
  | Some w => at_index w j
  | None => None
  end.

(** [number] used as a condition: [undefined] and [0] are falsy. *)
Definition truthy (n : option Z) : bool :=
  match n with
  | Some z => negb (z =? 0)
  | None => false
  end.

(** [text.split(" ")] *)
Fixpoint split_space (s : string) : list string :=
  match s with
  | EmptyString => [EmptyString]
  | String c rest =>
      if Ascii.eqb c Ascii.Space then EmptyString :: split_space rest
      else match split_space rest with
           | w :: ws => String c w :: ws
           | [] => [String c EmptyString]
           end
  end.

(** [word.split("")] *)
Fixpoint split_chars (s : string) : list string :=
  match s with
  | EmptyString => []
  | String c rest => String c EmptyString :: split_chars rest
  end.

Definition str_len (s : string) : Z := Z.of_nat (String.length s).

Definition letterData (l : string) : ILetterData :=
  {| letter := l; typed := false; status := None |}.

Definition placeholder : ILetterData := letterData "".

(** The slots of the real letters of a word, as both files build them. *)
Definition letters_of (word : string) : list ILetterData :=
  letterData <$> split_chars word.

(** ** Completions

    A call either returns or throws; what a throwing call already wrote to the
    engine or to the host stays written. *)

Inductive exn (E : Type) : Type :=
| TypeError               (* reading a property of [undefined] *)
| Thrown (e : E).         (* a value thrown by a subscriber *)
Arguments TypeError {E}.
Arguments Thrown {E} e.

Inductive completion (E A : Type) : Type :=
| Normal (a : A)
| Throw (x : exn E).
Arguments Normal {E A} a.
Arguments Throw {E A} x.

(** What the engine needs from its environment: the text generator of
    [@/lib/faker], the interval timer of [window] and [console.error]. *)
Record Host (W E : Type) : Type := mkHost {
  generateText : Z → W → string * W;
  setInterval : W → Z * W;
  clearInterval : Z → W → W;
  console_error : exn E → W → W;
}.
Arguments generateText {W E} h textSize w.
Arguments setInterval {W E} h w.
Arguments clearInterval {W E} h id w.
Arguments console_error {W E} h err w.

(** ** The engine (TypingEngine.ts) *)

Module Engine.
Section WithHost.

Context {W E : Type} (host : Host W E).

Definition StateChangeCallback : Type := IGameState → W → W * option E.
Definition GameOverCallback : Type := IGameResult → W → W * option E.

Record TypingEngineOptions : Type := mkOptions {
  opt_textSize : option Z;
  opt_timeLimit : option Z;
  opt_autoCreateOnConstruct : bool;
}.

Record TypingEngine : Type := mkEngine {
  state : IGameState;
  intervalId : option Z;
  onStateChangeCallbacks : list StateChangeCallback;
  onGameOverCallbacks : list GameOverCallback;
}.

(** *** The monad of the methods: engine and host are threaded, a throw
    cuts the rest of the method short. *)

Definition M (A : Type) : Type := TypingEngine → W → completion E A * TypingEngine * W.

Definition ret {A} (a : A) : M A := λ eng w, (Normal a, eng, w).

Definition bind {A B} (m : M A) (k : A → M B) : M B :=
  λ eng w,
    match m eng w with
    | (Normal a, eng', w') => k a eng' w'
    | (Throw x, eng', w') => (Throw x, eng', w')
    end.

Definition throw {A} (x : exn E) : M A := λ eng w, (Throw x, eng, w).

(** [try { m } catch (err) { handler(err) }] *)
Definition try_catch (m : M unit) (handler : exn E → M unit) : M unit :=
  λ eng w,
    match m eng w with
    | (Normal a, eng', w') => (Normal a, eng', w')
    | (Throw x, eng', w') => handler x eng' w'
    end.

#[local] Instance M_ret : MRet M := @ret.
#[local] Instance M_bind : MBind M := λ A B k m, bind m k.

Definition getState : M IGameState := λ eng w, (Normal (state eng), eng, w).

Definition modify (f : IGameState → IGameState) : M unit :=
  λ eng w,
    (Normal (), {| state := f (state eng);
                   intervalId := intervalId eng;
                   onStateChangeCallbacks := onStateChangeCallbacks eng;
                   onGameOverCallbacks := onGameOverCallbacks eng |}, w).

Definition set_intervalId (id : option Z) : M unit :=
  λ eng w,
    (Normal (), {| state := state eng;
                   intervalId := id;
                   onStateChangeCallbacks := onStateChangeCallbacks eng;
                   onGameOverCallbacks := onGameOverCallbacks eng |}, w).

(** Calling a subscriber. *)
Definition call {A} (cb : A → W → W * option E) (arg : A) : M unit :=
  λ eng w,
    match cb arg w with
    | (w', None) => (Normal (), eng, w')
    | (w', Some e) => (Throw (Thrown e), eng, w')
    end.

Definition log_error (err : exn E) : M unit :=
  λ eng w, (Normal (), eng, console_error host err w).

Definition host_generateText (textSize : Z) : M string :=
  λ eng w, let '(t, w') := generateText host textSize w in (Normal t, eng, w').

Definition host_setInterval : M Z :=
  λ eng w, let '(id, w') := setInterval host w in (Normal id, eng, w').

Definition host_clearInterval (id : Z) : M unit :=
  λ eng w, (Normal (), eng, clearInterval host id w).

Definition getIntervalId : M (option Z) :=
  λ eng w, (Normal (intervalId eng), eng, w).

Definition getStateChangeCallbacks : M (list StateChangeCallback) :=
  λ eng w, (Normal (onStateChangeCallbacks eng), eng, w).

Definition getGameOverCallbacks : M (list GameOverCallback) :=
  λ eng w, (Normal (onGameOverCallbacks eng), eng, w).

(** Field assignments [this.state.f = v]. *)
Definition set_isRunning (b : bool) (s : IGameState) : IGameState :=
  {| text := text s; data := data s; timeLimit := timeLimit s; counter := counter s;
     isRunning := b; isOver := isOver s; currentPos := currentPos s |}.
Definition set_isOver (b : bool) (s : IGameState) : IGameState :=
  {| text := text s; data := data s; timeLimit := timeLimit s; counter := counter s;
     isRunning := isRunning s; isOver := b; currentPos := currentPos s |}.
Definition set_counter (n : Z) (s : IGameState) : IGameState :=
  {| text := text s; data := data s; timeLimit := timeLimit s; counter := n;
     isRunning := isRunning s; isOver := isOver s; currentPos := currentPos s |}.
Definition set_timeLimit (t : option Z) (s : IGameState) : IGameState :=
  {| text := text s; data := data s; timeLimit := t; counter := counter s;
     isRunning := isRunning s; isOver := isOver s; currentPos := currentPos s |}.
Definition set_currentPos (p : ITextCoord) (s : IGameState) : IGameState :=
  {| text := text s; data := data s; timeLimit := timeLimit s; counter := counter s;
     isRunning := isRunning s; isOver := isOver s; currentPos := p |}.
Definition set_data (d : list (list ILetterData)) (s : IGameState) : IGameState :=
  {| text := text s; data := d; timeLimit := timeLimit s; counter := counter s;
     isRunning := isRunning s; isOver := isOver s; currentPos := currentPos s |}.

(** *** Construction and subscription *)

Definition getInitialState : IGameState :=
  {| text := "";
     data := [];
     timeLimit := None;
     counter := 0;
     isRunning := false;
     isOver := false;
     currentPos := {| Coord.word := 0; Coord.letter := 0 |} |}.

(** [onStateChange(cb)] and [onGameOver(cb)]: the subscriber is pushed. The
    unsubscribe closure they return is modelled on the list alone, in
    [Registry]. *)
Definition onStateChange (cb : StateChangeCallback) : M unit :=
  λ eng w,
    (Normal (), {| state := state eng;
                   intervalId := intervalId eng;
                   onStateChangeCallbacks := onStateChangeCallbacks eng ++ [cb];
                   onGameOverCallbacks := onGameOverCallbacks eng |}, w).

Definition onGameOver (cb : GameOverCallback) : M unit :=
  λ eng w,
    (Normal (), {| state := state eng;
                   intervalId := intervalId eng;
                   onStateChangeCallbacks := onStateChangeCallbacks eng;
                   onGameOverCallbacks := onGameOverCallbacks eng ++ [cb] |}, w).

(** *** Text / data creation *)

(** [createTextdata(text)] *)
Definition createTextdata (text : string) : list (list ILetterData) :=
  let words := split_space text in
  imap (λ (wordIndex : nat) (word : string),
          let letters := letterData <$> split_chars word in
          if decide (Z.of_nat wordIndex ≠ len words - 1)
          then letters ++ [ {| letter := ""; typed := false; status := None |} ]
          else letters)
       words.

(** *** Notification *)

(** The loop of [emitState]: each subscriber in a [try], the caught error
    logged. *)
Fixpoint emitState_loop (cbs : list StateChangeCallback) : M unit :=
  match cbs with
  | [] => mret ()
  | cb :: rest =>
      try_catch (st ← getState; call cb st) (λ err, log_error err);;
      emitState_loop rest
  end.

Definition emitState : M unit :=
  cbs ← getStateChangeCallbacks;
  emitState_loop cbs.

(** [callbacks.forEach(cb => cb(result))]: no [try] around the call. *)
Fixpoint forEach {A} (cbs : list (A → W → W * option E)) (arg : A) : M unit :=
  match cbs with
  | [] => mret ()
  | cb :: rest => call cb arg;; forEach rest arg
  end.

(** *** Evaluation *)

(** The body of the two nested loops of [getResult], on the accumulators
    [(correct, incorrect, totalChars)]. *)
Definition count_slot (acc : Z * Z * Z) (slot : ILetterData) : Z * Z * Z :=
  let '(correct, incorrect, totalChars) := acc in
  if decide (letter slot = "") then acc
  else
    let totalChars := totalChars + 1 in
    match status slot with
    | Some Correct => (correct + 1, incorrect, totalChars)
    | Some Incorrect => (correct, incorrect + 1, totalChars)
    | None => (correct, incorrect, totalChars)
    end.

Definition count_word (acc : Z * Z * Z) (word : list ILetterData) : Z * Z * Z :=
  fold_left count_slot word acc.

(** [getResult()] as a function of the state it reads. *)
Definition result_of (s : IGameState) : IGameResult :=
  let '(correct, incorrect, totalChars) := fold_left count_word (data s) (0, 0, 0) in
  let total := if decide (0 < totalChars) then totalChars else str_len (text s) in
  let elapsedSeconds := Z.max 1 (counter s) in
  let elapsedMinutes := JS.fdiv (JS.of_Z elapsedSeconds) (JS.of_Z 60) in
  let rawWpm := JS.fdiv (JS.fdiv (JS.of_Z correct) (JS.of_Z 5)) elapsedMinutes in
  let wpm := JS.or_zero (JS.round rawWpm) in
  let accuracy :=
    if decide (correct + incorrect = 0) then JS.of_Z 0
    else JS.round (JS.div (JS.of_Z (correct * 100)) (JS.of_Z (correct + incorrect))) in
  {| correct := correct;
     incorrect := incorrect;
     total := total;
     wpm := wpm;
     accuracy := accuracy |}.

Definition getResult : M IGameResult :=
  st ← getState; mret (result_of st).

(** *** Lifecycle *)

Definition stop : M unit :=
  modify (set_isRunning false);;
  id ← getIntervalId;
  match id with
  | Some id => host_clearInterval id;; set_intervalId None
  | None => mret ()
  end;;
  emitState.

Definition endGame : M unit :=
  stop;;
  modify (set_isOver true);;
  modify (set_isRunning false);;
  result ← getResult;
  emitState;;
  cbs ← getGameOverCallbacks;
  forEach cbs result.

Definition createNewGame (textSize : option Z) (timeLimit : option Z) : M unit :=
  let textSize := default 100 textSize in
  text ← host_generateText textSize;
  let data := createTextdata text in
  st ← getState;
  (if isRunning st then stop else mret ());;
  modify (λ _, {| text := text;
                  data := data;
                  timeLimit := timeLimit;
                  counter := counter getInitialState;
                  isRunning := isRunning getInitialState;
                  isOver := isOver getInitialState;
                  currentPos := currentPos getInitialState |});;
  emitState.

Definition start : M unit :=
  st ← getState;
  if isRunning st then mret ()
  else
    (modify (set_isRunning true);;
     modify (set_isOver false);;
     modify (set_counter 0);;
     emitState;;
     id ← host_setInterval;
     set_intervalId (Some id)).

Definition reset : M unit :=
  id ← getIntervalId;
  match id with
  | Some id => host_clearInterval id;; set_intervalId None
  | None => mret ()
  end;;
  modify (λ _, getInitialState);;
  emitState.

(** [this.state.data[i].length] *)
Definition length_at (i : Z) : M Z :=
  st ← getState;
  match at_index (data st) i with
  | Some word => mret (len word)
  | None => throw TypeError
  end.

(** [timeLimit && counter >= timeLimit] *)
Definition limit_reached (s : IGameState) : bool :=
  match timeLimit s with
  | Some limit => negb (limit =? 0) && bool_decide (limit ≤ counter s)
  | None => false
  end.

Definition tick : M unit :=
  modify (λ s, set_counter (counter s + 1) s);;
  st ← getState;
  if limit_reached st then endGame
  else
    let word := Coord.word (currentPos st) in
    let letter := Coord.letter (currentPos st) in
    if bool_decide (0 < len (data st)) && bool_decide (word = len (data st) - 1)
    then
      (n ← length_at word;
       if bool_decide (n ≤ letter) then endGame else emitState)
    else emitState.

(** [new TypingEngine(opts)] *)
Definition constructor (opts : option TypingEngineOptions) : M unit :=
  modify (λ _, getInitialState);;
  match opts with
  | Some o =>
      if opt_autoCreateOnConstruct o
      then createNewGame (Some (default 100 (opt_textSize o))) (opt_timeLimit o)
      else if truthy (opt_textSize o) || truthy (opt_timeLimit o)
      then (if truthy (opt_timeLimit o) then modify (set_timeLimit (opt_timeLimit o)) else mret ())
      else mret ()
  | None => mret ()
  end.

(** *** Input handling *)

Definition clear_slot (s : ILetterData) : ILetterData :=
  {| letter := letter s; typed := false; status := None |}.

Definition mark_slot (k : string) (s : ILetterData) : ILetterData :=
  {| letter := letter s;
     typed := true;
     status := Some (if decide (letter s = k) then Correct else Incorrect) |}.

(** [this.state.data[w][l].f = v] for the fields that [f] rewrites. *)
Definition write_slot (f : ILetterData → ILetterData) (w l : Z) : M unit :=
  modify (λ s, set_data (alter_index (alter_index f l) w (data s)) s).

Definition is_space (e : KeyboardEvent) : bool :=
  bool_decide (key e = " ") || bool_decide (code e = "Space").

Definition handleKey (e : KeyboardEvent) : M unit :=
  st ← getState;
  if bool_decide (len (data st) = 0) then mret ()
  else if isOver st then mret ()
  else
    let wordOffset := Coord.word (currentPos st) in
    let letterOffset := Coord.letter (currentPos st) in
    if bool_decide (key e = "Escape") then endGame
    else if bool_decide (key e = "Backspace") then
      (if bool_decide (letterOffset = 0) && bool_decide (wordOffset = 0) then mret ()
       else
         pos ← (if bool_decide (letterOffset = 0)
                then
                  (let wordOffset := Z.max 0 (wordOffset - 1) in
                   n ← length_at wordOffset;
                   mret (wordOffset, n - 1))
                else mret (wordOffset, letterOffset - 1));
         let '(wordOffset, letterOffset) := pos in
         (if bool_decide (is_Some (slot_at (data st) wordOffset letterOffset))
          then write_slot clear_slot wordOffset letterOffset
          else mret ());;
         modify (set_currentPos {| Coord.word := wordOffset; Coord.letter := letterOffset |});;
         emitState)
    else if is_space e then
      (if bool_decide (letterOffset = 0) then mret ()
       else
         let nextWord := Z.min (wordOffset + 1) (len (data st) - 1) in
         modify (set_currentPos {| Coord.word := nextWord; Coord.letter := 0 |});;
         emitState)
    else
      n ← length_at wordOffset;
      let rolled := bool_decide (n = letterOffset) in
      let wordOffset := if rolled then wordOffset + 1 else wordOffset in
      let letterOffset := if rolled then 0 else letterOffset in
      if rolled && bool_decide (len (data st) ≤ wordOffset) then endGame
      else
        match slot_at (data st) wordOffset letterOffset with
        | None => mret ()
        | Some _ =>
            write_slot (mark_slot (key e)) wordOffset letterOffset;;
            modify (set_currentPos {| Coord.word := wordOffset;
                                      Coord.letter := letterOffset + 1 |});;
            emitState;;
            st' ← getState;
            if bool_decide (wordOffset = len (data st') - 1)
            then
              (n' ← length_at wordOffset;
               if bool_decide (n' ≤ Coord.letter (currentPos st')) then endGame else mret ())
            else mret ()
        end.

(** *** Sessions: what the page and the timer do to an engine *)

Inductive action : Type :=
| CreateNewGame (textSize timeLimit : option Z)
| Start
| Stop
| Reset
| HandleKey (e : KeyboardEvent)
| Tick                      (* the interval fires *)
| OnStateChange (cb : StateChangeCallback)
| OnGameOver (cb : GameOverCallback).

Definition perform (a : action) : M unit :=
  match a with
  | CreateNewGame textSize timeLimit => createNewGame textSize timeLimit
  | Start => start
  | Stop => stop
  | Reset => reset
  | HandleKey e => handleKey e
  | Tick => id ← getIntervalId; match id with Some _ => tick | None => mret () end
  | OnStateChange cb => onStateChange cb
  | OnGameOver cb => onGameOver cb
  end.

(** A throw reaches the host; the engine stays as the throwing call left
    it and the session goes on. *)
Fixpoint run (acts : list action) (eng : TypingEngine) (w : W) : TypingEngine * W :=
  match acts with
  | [] => (eng, w)
  | a :: rest => let '(_, eng', w') := perform a eng w in run rest eng' w'
  end.

Definition new_engine : TypingEngine :=
  {| state := getInitialState;
     intervalId := None;
     onStateChangeCallbacks := [];
     onGameOverCallbacks := [] |}.

Definition reachable (eng : TypingEngine) : Prop :=
  ∃ (acts : list action) (w0 w : W), run acts new_engine w0 = (eng, w).

End WithHost.
End Engine.

(** ** The hook (src/hooks/use-typing.tsx)

    The hook keeps one [IGame] in React state. Each function below is the
    update that the hook hands to [setGame], applied to the current game. *)

Module Hook.

Definition initialState : IGame :=
  {| text := "";
     counter := 0;
     data := [];
     isOver := false;
     isRunning := false;
     currentPos := {| Coord.word := 0; Coord.letter := 0 |};
     timeLimit := None |}.

Definition setTimeLimit (timeLimit : option Z) (game : IGame) : IGame :=
  let timeLimit := default 30 timeLimit in
  {| text := text game; data := data game; timeLimit := Some timeLimit;
     counter := counter game; isRunning := isRunning game; isOver := isOver game;
     currentPos := currentPos game |}.

(** [createTextdata(text)]: the test reads [word.length], the length of the
    current word, where the engine reads [words.length]. *)
Definition createTextdata (text : string) : list (list ILetterData) :=
  let words := split_space text in
  imap (λ (wordIndex : nat) (word : string),
          let letters := letterData <$> split_chars word in
          if decide (Z.of_nat wordIndex ≠ str_len word - 1)
          then letters ++ [ {| typed := false; letter := ""; status := None |} ]
          else letters)
       words.

(** [createNewGame(textSize, timeLimit)], given the text that
    [generateText(textSize)] returned. *)
Definition createNewGame (text : string) (timeLimit : option Z) (game : IGame) : IGame :=
  let data := createTextdata text in
  if isRunning game then game
  else {| text := text;
          data := data;
          timeLimit := timeLimit;
          counter := counter initialState;
          isOver := isOver initialState;
          isRunning := isRunning initialState;
          currentPos := currentPos initialState |}.

Definition startGame (game : IGame) : IGame :=
  if isRunning game then game
  else {| text := text game; data := data game; timeLimit := timeLimit game;
          counter := counter game; isRunning := true; isOver := isOver game;
          currentPos := currentPos game |}.

Definition isReady (game : IGame) : bool :=
  negb (bool_decide (text game = "")) && bool_decide (0 < len (data game)).

(** The two nested loops of [result]: every slot with a status counts. *)
Definition count_slot (acc : Z * Z) (letter : ILetterData) : Z * Z :=
  let '(correct, incorrect) := acc in
  match status letter with
  | Some Correct => (correct + 1, incorrect)
  | Some Incorrect => (correct, incorrect + 1)
  | None => (correct, incorrect)
  end.

Definition count_word (acc : Z * Z) (word : list ILetterData) : Z * Z :=
  fold_left count_slot word acc.

(** [result(game)]. The guard [if (!isReady) return] tests the function
    [isReady] itself, which is truthy, so it never returns early. [None]
    is the [TypeError] of reading [.length] of a missing word. *)
Definition result (game : IGame) : option IGameResult :=
  let words := Coord.word (currentPos game) in
  let total := str_len (text game) in
  match at_index (data game) (Coord.word (currentPos game)) with
  | None => None
  | Some current =>
      let words :=
        if bool_decide (Coord.letter (currentPos game) < len current - 1)
        then words - 1 else words in
      let wpm :=
        JS.round (JS.fmul (JS.fdiv (JS.of_Z words) (JS.of_Z (counter game))) (JS.of_Z 60)) in
      let '(correct, incorrect) := fold_left count_word (data game) (0, 0) in
      let accuracy :=
        if decide (correct + incorrect = 0) then JS.of_Z 0
        else JS.round (JS.div (JS.of_Z (correct * 100)) (JS.of_Z (correct + incorrect))) in
      Some {| correct := correct;
              incorrect := incorrect;
              total := total;
              wpm := wpm;
              accuracy := accuracy |}
  end.

Definition isLetterActive (game : IGame) (wordOffset letterOffset : Z) : bool :=
  isRunning game
  && bool_decide (Coord.word (currentPos game) = wordOffset)
  && bool_decide (Coord.letter (currentPos game) = letterOffset).

(** The effects are live while the game runs and is not over. *)
Definition live (game : IGame) : bool := isRunning game && negb (isOver game).

(** The interval of the first effect: one more second. *)
Definition countSecond (game : IGame) : IGame :=
  if live game
  then {| text := text game; data := data game; timeLimit := timeLimit game;
          counter := counter game + 1; isRunning := isRunning game;
          isOver := isOver game; currentPos := currentPos game |}
  else game.

(** The condition of the second effect. Its read of [game.data[wordOffset]]
    is guarded by [game.data.length - 1 === wordOffset] and can only miss on
    an empty grid with the caret's word at -1, where the effect throws; the
    condition is [false] there. *)
Definition endCondition (game : IGame) : bool :=
  let wordOffset := Coord.word (currentPos game) in
  let letterOffset := Coord.letter (currentPos game) in
  (truthy (timeLimit game) && bool_decide (Some (counter game) = timeLimit game))
  || (bool_decide (len (data game) - 1 = wordOffset)
      && bool_decide (len <$> at_index (data game) wordOffset = Some letterOffset)).

(** The second effect: it ends the game when its condition holds. *)
Definition endEffect (game : IGame) : IGame :=
  if live game && endCondition game
  then {| text := text game; data := data game; timeLimit := timeLimit game;
          counter := counter game; isRunning := false; isOver := true;
          currentPos := currentPos game |}
  else game.

(** One second of a session: the interval fires, React renders, the second
    effect runs. *)
Definition second (game : IGame) : IGame := endEffect (countSecond game).

(** What a key handler call comes to. *)
Inductive outcome : Type :=
| Updated (game : IGame)   (* the game after the queued [setGame] updates *)
| Raises                   (* [TypeError]: a property of [undefined] is read *)
| Grows.                   (* the store lands outside the slots of the word:
                              JavaScript stores an object without letter
                              there, growing the array when the index is past
                              its end; the model stops *)

(** [updateGameData(offset, data, { increment })]; [patch] is the spread
    [{...prev, ...data}] as a function of [prev]. *)
Definition updateGameData (offset : ITextCoord) (patch : ILetterData → ILetterData)
    (increment : bool) (game : IGame) : outcome :=
  match at_index (data game) (Coord.word offset) with
  | None => Raises
  | Some word =>
      match at_index word (Coord.letter offset) with
      | None => Grows
      | Some _ =>
          Updated
            {| text := text game;
               data := alter_index (alter_index patch (Coord.letter offset))
                         (Coord.word offset) (data game);
               timeLimit := timeLimit game;
               counter := counter game;
               isRunning := isRunning game;
               isOver := isOver game;
               currentPos := {| Coord.word := Coord.word offset;
                                Coord.letter := Coord.letter offset
                                                + (if increment then 1 else 0) |} |}
      end
  end.

Definition is_space (e : KeyboardEvent) : bool :=
  bool_decide (key e = " ") || bool_decide (code e = "Space").

(** [handleKeyDown(e)] *)
Definition handleKeyDown (e : KeyboardEvent) (game : IGame) : outcome :=
  let wordOffset := Coord.word (currentPos game) in
  let letterOffset := Coord.letter (currentPos game) in
  if bool_decide (key e = "Backspace") then
    if bool_decide (letterOffset = 0) then
      if bool_decide (wordOffset = 0) then Updated game
      else
        let wordOffset := Z.max 0 (wordOffset - 1) in
        match at_index (data game) wordOffset with
        | None => Raises
        | Some word =>
            updateGameData {| Coord.word := wordOffset; Coord.letter := len word - 1 |}
              (λ prev, {| letter := letter prev; typed := false; status := None |})
              false game
        end
    else
      updateGameData {| Coord.word := wordOffset; Coord.letter := letterOffset - 1 |}
        (λ prev, {| letter := letter prev; typed := false; status := None |})
        false game
  else if is_space e then
    if bool_decide (wordOffset = len (data game)) then Updated game
    else if bool_decide (letterOffset = 0) then Updated game
    else
      Updated
        {| text := text game; data := data game; timeLimit := timeLimit game;
           counter := counter game; isRunning := isRunning game; isOver := isOver game;
           currentPos := {| Coord.word := Z.min (wordOffset + 1) (len (data game) - 1);
                            Coord.letter := 0 |} |}
  else
    match at_index (data game) wordOffset with
    | None => Raises
    | Some word =>
        let rolled := bool_decide (len word = letterOffset) in
        let letterOffset := if rolled then 0 else letterOffset in
        let wordOffset := if rolled then wordOffset + 1 else wordOffset in
        match at_index (data game) wordOffset with
        | None => Raises
        | Some word' =>
            match at_index word' letterOffset with
            | None => Raises
            | Some letterData =>
                updateGameData {| Coord.letter := letterOffset; Coord.word := wordOffset |}
                  (λ _, {| letter := letter letterData;
                           typed := true;
                           status := Some (if decide (letter letterData = key e)
                                           then Correct else Incorrect) |})
                  true game
            end
        end
    end.

(** The last effect: the [keydown] listener is attached while the game is
    live, so a key reaches [handleKeyDown] only then. *)
Definition keydownListenerAttached (game : IGame) : bool := live game.

(** A key pressed on the page. *)
Definition keydown (e : KeyboardEvent) (game : IGame) : outcome :=
  if keydownListenerAttached game then handleKeyDown e game else Updated game.

(** A key pressed while the page shows the game: the handler's update, then
    the second effect. A handler that throws leaves the game as it was (and
    so does, here, one that stores outside the grid). *)
Definition typed_key (k : string) (game : IGame) : IGame :=
  match keydown {| key := k; code := "" |} game with
  | Updated game' => endEffect game'
  | Raises | Grows => game
  end.

End Hook.

(** ** The page (the component [HomePage] and its [Timer])

    The page keeps the game of the hook and two options. Its handlers run
    with the game of the render they were made in; what they queue with
    [setGame] is applied in order. *)

Module Page.

(** [String(n)] of an integer. *)
Definition js_String (n : Z) : string := NilZero.string_of_int (Z.to_int n).

(** lodash's [padStart(string, length, chars)] for a pad of one character. *)
Definition padStart (s : string) (length : nat) (chars : Ascii.ascii) : string :=
  Nat.iter (length - String.length s) (String chars) s.

(** The two fields of [Timer]. *)
Definition timeInMin (counter : Z) : string :=
  padStart (js_String (counter / 60)) 2 "0"%char.

Definition timeInSec (counter : Z) : string :=
  padStart (js_String (Z.rem counter 60)) 2 "0"%char.

(** [handleOnClickStartGame], given the text that [generateText] returns and
    the time limit selected on the page. [createNewGame] replaces the game,
    then the update of [startGame] sets [isRunning] on it. *)
Definition handleOnClickStartGame (text : string) (timeLimit : Z) (game : IGame) : IGame :=
  if isRunning game then game
  else
    let game' :=
      if negb (isRunning game) && isOver game
      then Hook.createNewGame text (Some timeLimit) game
      else game in
    Hook.startGame game'.

(** [handleStartGame(e)], the [keydown] listener of the window. *)
Definition handleStartGame (text : string) (timeLimit : Z) (e : KeyboardEvent)
    (game : IGame) : IGame :=
  if negb (bool_decide (key e = "Enter")) then game
  else
    let game' :=
      if negb (isRunning game) && isOver game
      then Hook.createNewGame text (Some timeLimit) game
      else game in
    if isRunning game then game' else Hook.startGame game'.

End Page.

(** ** The lists of subscribers

    [onStateChange(cb)] and [onGameOver(cb)] push [cb] and return a closure
    that filters the list with [c !== cb]. The subscribers are compared by
    identity, which is the decidable equality of [Cb] here. *)

Module Registry.
Section Callbacks.

Context {Cb : Type} `{EqDecision Cb}.

Definition subscribe (cb : Cb) (cbs : list Cb) : list Cb := cbs ++ [cb].

Definition unsubscribe (cb : Cb) (cbs : list Cb) : list Cb :=
  filter (λ c, c ≠ cb) cbs.

End Callbacks.
End Registry.

(** ** A host for closed examples

    Its world is the log of what the engine and the subscribers did; the
    generated text is fixed. *)

Definition log_host (text : string) : Host (list string) string :=
  {| generateText := λ _ w, (text, w);
     setInterval := λ w, (1, w ++ ["setInterval"]);
     clearInterval := λ _ w, w ++ ["clearInterval"];
     console_error := λ _ w, w ++ ["console.error"] |}.

(** A subscriber that logs its name and returns, and one that logs its name
    and throws. *)
Definition quiet {A} (name : string) : A → list string → list string * option string :=
  λ _ w, (w ++ [name], None).

Definition faulty {A} (name : string) : A → list string → list string * option string :=
  λ _ w, (w ++ [name], Some name).

(** A key event for the character or the named key [k]. *)
Definition press (k : string) : KeyboardEvent := {| key := k; code := "" |}.

(** ** Sessions used as examples *)

Module Example.

Import Engine.

Definition host : Host (list string) string := log_host "cat dog".

Definition engine_after (acts : list (@action (list string) string))
    : @TypingEngine (list string) string :=
  (run host acts new_engine []).1.

Definition keys (ks : list string) : list (@action (list string) string) :=
  (λ k, HandleKey (press k)) <$> ks.

(** A game on "cat dog" that was created and not started. *)
Definition ready := engine_after [CreateNewGame None None].

(** The same game, started, "cat" typed and then an "x" where the space is
    due. *)
Definition letter_for_space :=
  engine_after ([CreateNewGame None None; Start] ++ keys ["c"; "a"; "t"; "x"]).

(** The same game typed to its end, then started again: the caret still
    stands one past the last slot. *)
Definition restarted :=
  engine_after ([CreateNewGame None None; Start]
                ++ keys ["c"; "a"; "t"; " "; "d"; "o"; "g"] ++ [Start]).

(** A running game with two subscribers of each kind, the first of each
    throwing. *)
Definition subscribed :=
  engine_after [OnStateChange (faulty "state-1"); OnStateChange (quiet "state-2");
                OnGameOver (faulty "over-1"); OnGameOver (quiet "over-2");
                CreateNewGame None None; Start].

(** A game whose generated text is one space. *)
Definition blank := (run (log_host " ") [CreateNewGame None None] new_engine []).1.

(** The hook: a game on "cat dog" that has run for some seconds. *)
Definition hook_running (seconds : nat) : IGame :=
  Nat.iter seconds Hook.second
    (Hook.startGame (Hook.createNewGame "cat dog" (Some 30) Hook.initialState)).

(** Six seconds, after which every letter is typed wrong; the eighth key
    brings the caret to the end of the hook's grid and the game is over. *)
Definition hook_all_wrong : IGame :=
  foldl (λ game k, Hook.typed_key k game) (hook_running 6)
    ["x"; "x"; "x"; " "; "x"; "x"; "x"; "x"].

(** The text typed right, and the eighth key, before the first second has
    elapsed. *)
Definition hook_instant : IGame :=
  foldl (λ game k, Hook.typed_key k game) (hook_running 0)
    ["c"; "a"; "t"; " "; "d"; "o"; "g"; "x"].

(** Sixteen seconds, then the limit is set to fifteen. *)
Definition hook_late_limit : IGame :=
  Hook.setTimeLimit (Some 15) (hook_running 16).

(** "cat" typed: the caret stands on the placeholder of the word. *)
Definition hook_word_typed : IGame :=
  foldl (λ game k, Hook.typed_key k game) (hook_running 1) ["c"; "a"; "t"].

(** "cat" typed, then an "x" where the space is due. *)
Definition hook_letter_for_space : IGame :=
  foldl (λ game k, Hook.typed_key k game) (hook_running 1) ["c"; "a"; "t"; "x"].

(** The engine: a game with a limit of two seconds, one second in. *)
Definition limited := engine_after [CreateNewGame None (Some 2); Start; Tick].

(** The engine: "ca" typed in a running game. *)
Definition two_typed :=
  engine_after ([CreateNewGame None None; Start] ++ keys ["c"; "a"]).

(** The engine: "cat dog" typed up to its last letter. *)
Definition last_word_typed :=
  engine_after ([CreateNewGame None None; Start]
                ++ keys ["c"; "a"; "t"; " "; "d"; "o"]).

(** The engine: "cat" typed, the caret on the placeholder of the word. *)
Definition word_typed :=
  engine_after ([CreateNewGame None None; Start] ++ keys ["c"; "a"; "t"]).

End Example.

(** ** The vocabulary of the specification *)

(** The slots of a grid that stand for a character of the text. *)
Definition real_slots (grid : list (list ILetterData)) : list ILetterData :=
  filter (λ s, letter s ≠ "") (concat grid).

(** How many of them carry the status [st]. *)
Definition count_status (st : Status) (grid : list (list ILetterData)) : Z :=
  len (filter (λ s, status s = Some st) (real_slots grid)).

(** Net words per minute: five correct characters make a word, time is at
    least one second. *)
Definition wpm_formula (correct elapsedSeconds : Z) : Z :=
  JS.round_half_up
    ((inject_Z correct / 5) / (inject_Z (Z.max 1 elapsedSeconds) / 60))%Q.

(** The rate as [getResult] computes it: the same expression, each quotient
    rounded to binary64. *)
Definition wpm_of (correct elapsedSeconds : Z) : JS.number :=
  JS.or_zero
    (JS.round (JS.fdiv (JS.fdiv (JS.of_Z correct) (JS.of_Z 5))
                       (JS.fdiv (JS.of_Z (Z.max 1 elapsedSeconds)) (JS.of_Z 60)))).

(** What one rounding to binary64 can change: one part in [2^53] of the
    number, or [tiny] below the normal range. *)
Definition unit_roundoff : Q := 1 # 9007199254740992.
Definition tiny : Q := JS.pow2 (-1075).

(** Percentage of the judged characters that are correct. *)
Definition accuracy_formula (correct incorrect : Z) : Z :=
  if decide (correct + incorrect = 0) then 0
  else JS.round_half_up (inject_Z (correct * 100) / inject_Z (correct + incorrect))%Q.

(** What one guarded call of a state subscriber leaves in the host: the
    subscriber's own effect and, when it threw, the logged error. *)
Definition guarded {W E} (host : Host W E) (cb : IGameState → W → W * option E)
    (st : IGameState) (w : W) : W :=
  match cb st w with
  | (w', None) => w'
  | (w', Some e) => console_error host (Thrown e) w'
  end.

(** Every subscriber of the list called in turn, each one guarded. *)
Definition notified {W E} (host : Host W E) (cbs : list (IGameState → W → W * option E))
    (st : IGameState) (w : W) : W :=
  fold_left (λ w cb, guarded host cb st w) cbs w.

(** The game-over subscribers called in turn until one throws: the thrown
    value, if any, and the host after the calls that were made. *)
Fixpoint announced {W E A} (cbs : list (A → W → W * option E)) (arg : A) (w : W)
    : option E * W :=
  match cbs with
  | [] => (None, w)
  | cb :: rest =>
      match cb arg w with
      | (w', None) => announced rest arg w'
      | (w', Some e) => (Some e, w')
      end
  end.

(** The terminal transition on the state: not running, over. *)
Definition over (s : IGameState) : IGameState :=
  {| text := text s; data := data s; timeLimit := timeLimit s; counter := counter s;
     isRunning := false; isOver := true; currentPos := currentPos s |}.

(** An engine with another state and timer handle, the subscribers kept. *)
Definition with_state {W E} (eng : @Engine.TypingEngine W E) (s : IGameState)
    (id : option Z) : @Engine.TypingEngine W E :=
  {| Engine.state := s;
     Engine.intervalId := id;
     Engine.onStateChangeCallbacks := Engine.onStateChangeCallbacks eng;
     Engine.onGameOverCallbacks := Engine.onGameOverCallbacks eng |}.

(** The engine after the terminal transition: the timer handle released. *)
Definition ended {W E} (eng : @Engine.TypingEngine W E) : @Engine.TypingEngine W E :=
  with_state eng (over (Engine.state eng)) None.

(** Backspace on the state: the caret goes to [(w, l)] and the slot there, if
    there is one, is cleared. *)
Definition retreat (w l : Z) (s : IGameState) : IGameState :=
  Engine.set_currentPos {| Coord.word := w; Coord.letter := l |}
    (if bool_decide (is_Some (slot_at (data s) w l))
     then Engine.set_data (alter_index (alter_index Engine.clear_slot l) w (data s)) s
     else s).

(** A character on the state: the slot at [(w, l)] is marked against the key
    [k] and the caret goes one slot further. *)
Definition advance (k : string) (w l : Z) (s : IGameState) : IGameState :=
  Engine.set_currentPos {| Coord.word := w; Coord.letter := l + 1 |}
    (Engine.set_data (alter_index (alter_index (Engine.mark_slot k) l) w (data s)) s).

(** The slot that a character is written to: the caret, rolled to the start
    of the next word when it stands one past the slots of its word. *)
Definition target (s : IGameState) : Z * Z :=
  let w := Coord.word (currentPos s) in
  let l := Coord.letter (currentPos s) in
  match at_index (data s) w with
  | Some word => if bool_decide (len word = l) then (w + 1, 0) else (w, l)
  | None => (w, l)
  end.

(** The slot that Backspace steps back to: the one before the caret, or the
    last one of the word before from the start of a word; none from the
    start of the text, or where the word before is missing. *)
Definition behind (s : IGameState) : option (Z * Z) :=
  let w := Coord.word (currentPos s) in
  let l := Coord.letter (currentPos s) in
  if bool_decide (l = 0) then
    if bool_decide (w = 0) then None
    else (λ word, (Z.max 0 (w - 1), len word - 1)) <$> at_index (data s) (Z.max 0 (w - 1))
  else Some (w, l - 1).

(** [grid'] is [grid] with the slot at [p], if there is one, replaced by its
    image under [f], and every other slot as it was; with no slot at [p],
    [grid'] is [grid]. *)
Definition rewritten (f : ILetterData → ILetterData) (p : option (Z * Z))
    (grid grid' : list (list ILetterData)) : Prop :=
  match p with
  | Some (i, j) =>
      match slot_at grid i j with
      | Some slot =>
          grid' = alter_index (alter_index (λ _, f slot) j) i grid
          ∧ slot_at grid' i j = Some (f slot)
          ∧ ∀ i' j', (i', j') ≠ (i, j) → slot_at grid' i' j' = slot_at grid i' j'
      | None => grid' = grid
      end
  | None => grid' = grid
  end.

(** [handleKey] as a transition of the engine, the host left out. *)
Definition key_step {W E} (e : KeyboardEvent) (eng : @Engine.TypingEngine W E)
    : @Engine.TypingEngine W E :=
  let s := Engine.state eng in
  let w := Coord.word (currentPos s) in
  let l := Coord.letter (currentPos s) in
  if bool_decide (len (data s) = 0) then eng
  else if isOver s then eng
  else if bool_decide (key e = "Escape") then ended eng
  else if bool_decide (key e = "Backspace") then
    if bool_decide (l = 0) then
      if bool_decide (w = 0) then eng
      else
        match at_index (data s) (Z.max 0 (w - 1)) with
        | Some word =>
            with_state eng (retreat (Z.max 0 (w - 1)) (len word - 1) s) (Engine.intervalId eng)
        | None => eng
        end
    else with_state eng (retreat w (l - 1) s) (Engine.intervalId eng)
  else if Engine.is_space e then
    if bool_decide (l = 0) then eng
    else with_state eng
           (Engine.set_currentPos
              {| Coord.word := Z.min (w + 1) (len (data s) - 1); Coord.letter := 0 |} s)
           (Engine.intervalId eng)
  else
    match at_index (data s) w with
    | None => eng
    | Some word =>
        let '(w', l') := target s in
        if bool_decide (len word = l) && bool_decide (len (data s) ≤ w') then ended eng
        else
          match slot_at (data s) w' l' with
          | None => eng
          | Some _ =>
              let eng' := with_state eng (advance (key e) w' l' s) (Engine.intervalId eng) in
              match at_index (data s) w' with
              | Some word' =>
                  if bool_decide (w' = len (data s) - 1) && bool_decide (len word' ≤ l' + 1)
                  then ended eng' else eng'
              | None => eng'
              end
          end
    end.

(** Whether [handleKey] meets a missing word, the one read it does not guard. *)
Definition key_raises (e : KeyboardEvent) (s : IGameState) : bool :=
  let w := Coord.word (currentPos s) in
  let l := Coord.letter (currentPos s) in
  negb (bool_decide (len (data s) = 0)) && negb (isOver s)
  && negb (bool_decide (key e = "Escape"))
  && (if bool_decide (key e = "Backspace")
      then bool_decide (l = 0) && negb (bool_decide (w = 0))
           && bool_decide (at_index (data s) (Z.max 0 (w - 1)) = None)
      else negb (Engine.is_space e) && bool_decide (at_index (data s) w = None)).

(** The classes of keys, in the order in which [handleKey] tests them. *)
Inductive key_class : Type := KEscape | KBackspace | KSpace | KPrintable.

Definition classify (e : KeyboardEvent) : key_class :=
  if bool_decide (key e = "Escape") then KEscape
  else if bool_decide (key e = "Backspace") then KBackspace
  else if Engine.is_space e then KSpace
  else KPrintable.

(** The terminal position: one past the last slot of the last word. *)
Definition at_terminal (s : IGameState) : bool :=
  match at_index (data s) (Coord.word (currentPos s)) with
  | Some word =>
      bool_decide (len word = Coord.letter (currentPos s))
      && bool_decide (len (data s) ≤ Coord.word (currentPos s) + 1)
  | None => false
  end.

(** The number that a decimal string spells. *)
Definition read_number (s : string) : option Z :=
  Z.of_int <$> NilZero.int_of_string s.

(** Where the caret of a session stands: in a word of the grid, or at the
    origin of an empty grid. *)
Definition caret_in_grid (s : IGameState) : Prop :=
  0 ≤ Coord.word (currentPos s) < Z.max 1 (len (data s)).

(** The three parts of what a method call gives back. *)
Definition completion_of {W E A} {T} (r : completion E A * T * W) : completion E A := r.1.1.
Definition engine_of {W E A} {T} (r : completion E A * T * W) : T := r.1.2.
Definition world_of {W E A} {T} (r : completion E A * T * W) : W := r.2.

(** ** Reading a grid back *)

(** The character that a slot stands for: its letter, a placeholder being
    the space that followed the word. *)
Definition slot_text (s : ILetterData) : string :=
  if decide (letter s = "") then " " else letter s.

(** The text that a grid stands for. *)
Definition grid_text (grid : list (list ILetterData)) : string :=
  foldr String.append "" (slot_text <$> concat grid).

(** The number of spaces of a text. *)
Fixpoint spaces (s : string) : Z :=
  match s with
  | EmptyString => 0
  | String c rest => (if Ascii.eqb c Ascii.Space then 1 else 0) + spaces rest
  end.

(** The rows of [Engine.createTextdata], word by word. *)
Fixpoint rows (words : list string) : list (list ILetterData) :=
  match words with
  | [] => []
  | [word] => [letters_of word]
  | word :: rest => (letters_of word ++ [placeholder]) :: rows rest
  end.

(** The words of a text put back together. *)
Fixpoint unsplit (words : list string) : string :=
  match words with
  | [] => ""
  | [word] => word
  | word :: rest => word +:+ " " +:+ unsplit rest
  end.

(** A slot as [createTextdata] makes them: a placeholder, or one character
    that is not a space. *)
Definition plain_slot (s : ILetterData) : Prop :=
  letter s = "" ∨ ∃ c, c ≠ Ascii.Space ∧ letter s = String c "".

(** The letters of a grid, the marks left out: its shape. *)
Definition letters (grid : list (list ILetterData)) : list (list string) :=
  (λ word : list ILetterData, letter <$> word) <$> grid.

(** A slot that carries no mark. *)
Definition unmarked (s : ILetterData) : Prop := typed s = false ∧ status s = None.

(** The engine holds a timer handle exactly while it runs, and a game is not
    both running and over. *)
Definition timer_held {W E} (eng : @Engine.TypingEngine W E) : Prop :=
  (isRunning (Engine.state eng) = true ↔ is_Some (Engine.intervalId eng))
  ∧ ¬ (isRunning (Engine.state eng) = true ∧ isOver (Engine.state eng) = true).

(** * Properties *)

(** ** Arrays *)

Lemma at_index_Some {A} (l : list A) (i : Z) (x : A) :
  at_index l i = Some x ↔ 0 ≤ i ∧ l !! Z.to_nat i = Some x.
Proof.
  unfold at_index. case_decide; intuition (try discriminate; try lia).
Qed.

Lemma at_index_is_Some {A} (l : list A) (i : Z) :
  is_Some (at_index l i) ↔ 0 ≤ i < len l.
Proof.
  unfold at_index, len. case_decide.
  - rewrite lookup_lt_is_Some. lia.
  - split; [intros [? ?]; discriminate | lia].
Qed.

Lemma at_index_None {A} (l : list A) (i : Z) :
  at_index l i = None ↔ i < 0 ∨ len l ≤ i.
Proof.
  rewrite eq_None_not_Some, at_index_is_Some. lia.
Qed.

Lemma len_alter_index {A} (f : A → A) (i : Z) (l : list A) :
  len (alter_index f i l) = len l.
Proof.
  unfold alter_index, len. case_decide; [by rewrite length_alter | done].
Qed.

Lemma at_index_alter_index {A} (f : A → A) (i j : Z) (l : list A) :
  at_index (alter_index f i l) j
  = if decide (i = j) then f <$> at_index l j else at_index l j.
Proof.
  unfold at_index, alter_index.
  destruct (decide (0 ≤ j)) as [Hj|Hj], (decide (0 ≤ i)) as [Hi|Hi];
    destruct (decide (i = j)) as [->|Hne]; try done; try lia.
  - by rewrite list_lookup_alter_eq.
  - rewrite list_lookup_alter_ne; [done | lia].
Qed.

(** ** The grid of the engine *)

Lemma split_space_nonempty (s : string) : split_space s ≠ [].
Proof.
  induction s as [|c rest IH]; simpl; [done |].
  destruct (Ascii.eqb c Ascii.Space); [done |].
  by destruct (split_space rest).
Qed.

Lemma letters_of_real (word : string) :
  Forall (λ s, letter s ≠ "" ∧ typed s = false ∧ status s = None) (letters_of word).
Proof.
  unfold letters_of. induction word as [|c rest IH]; simpl; constructor; [done | exact IH].
Qed.

(** X2. [Engine.createTextdata]: one array of slots for each word of the text; the
    real letters of the word, followed by one placeholder for every word but
    the last. *)
Lemma engine_createTextdata_shape (text : string) :
  let words := split_space text in
  let grid := Engine.createTextdata text in
  length grid = length words
  ∧ ∀ (i : nat) (word : string),
      words !! i = Some word →
      grid !! i = Some (if decide (S i = length words)
                        then letters_of word
                        else letters_of word ++ [placeholder]).
Proof.
  intros words grid. subst grid. unfold Engine.createTextdata. fold words.
  split; [apply length_imap |].
  intros i word Hi. rewrite list_lookup_imap, Hi. simpl. f_equal.
  unfold len, letters_of, placeholder, letterData.
  pose proof (lookup_lt_Some _ _ _ Hi).
  repeat case_decide; try done; lia.
Qed.

(** The hook's grid: the placeholder is decided by the length of the word. *)
Lemma hook_createTextdata_shape (text : string) :
  let words := split_space text in
  let grid := Hook.createTextdata text in
  length grid = length words
  ∧ ∀ (i : nat) (word : string),
      words !! i = Some word →
      grid !! i = Some (if decide (S i = String.length word)
                        then letters_of word
                        else letters_of word ++ [placeholder]).
Proof.
  intros words grid. subst grid. unfold Hook.createTextdata. fold words.
  split; [apply length_imap |].
  intros i word Hi. rewrite list_lookup_imap, Hi. simpl. f_equal.
  unfold str_len, letters_of, placeholder, letterData.
  repeat case_decide; try done; lia.
Qed.

(** C1. The hook does not build the grid that the specification describes:
    in the grid of "cat dog" the last word carries a placeholder too, and in
    the grid of "a b" the first word carries none. The engine builds the
    specified grid of both texts. *)
Theorem hook_createTextdata_misplaces_placeholders :
  Hook.createTextdata "cat dog"
  = [letters_of "cat" ++ [placeholder]; letters_of "dog" ++ [placeholder]]
  ∧ Hook.createTextdata "a b"
    = [letters_of "a"; letters_of "b" ++ [placeholder]]
  ∧ Engine.createTextdata "cat dog"
    = [letters_of "cat" ++ [placeholder]; letters_of "dog"]
  ∧ Engine.createTextdata "a b"
    = [letters_of "a" ++ [placeholder]; letters_of "b"].
Proof. repeat split; vm_compute; reflexivity. Qed.

(** ** Rounding *)

Lemma round_half_up_div (n d : Z) :
  0 < d → JS.round_half_up (inject_Z n / inject_Z d) = (2 * n + d) / (2 * d).
Proof.
  intros Hd. unfold JS.round_half_up. rewrite Zdiv_Qdiv.
  apply Qfloor_comp.
  rewrite inject_Z_plus, !inject_Z_mult.
  assert (¬ inject_Z d == 0)%Q as Hnz.
  { change 0%Q with (inject_Z 0). rewrite inject_Z_injective. lia. }
  field. exact Hnz.
Qed.

Lemma wpm_formula_integer (correct elapsedSeconds : Z) :
  wpm_formula correct elapsedSeconds
  = (24 * correct + Z.max 1 elapsedSeconds) / (2 * Z.max 1 elapsedSeconds).
Proof.
  unfold wpm_formula. set (m := Z.max 1 elapsedSeconds).
  assert (0 < m) as Hm by lia.
  transitivity (JS.round_half_up (inject_Z (12 * correct) / inject_Z m)).
  - unfold JS.round_half_up. apply Qfloor_comp.
    rewrite inject_Z_mult.
    assert (¬ inject_Z m == 0)%Q as Hnz.
    { change 0%Q with (inject_Z 0). rewrite inject_Z_injective. lia. }
    field. exact Hnz.
  - rewrite (round_half_up_div _ _ Hm). f_equal. lia.
Qed.

Lemma accuracy_formula_integer (correct incorrect : Z) :
  0 ≤ correct → 0 ≤ incorrect →
  accuracy_formula correct incorrect
  = if decide (correct + incorrect = 0) then 0
    else (200 * correct + (correct + incorrect)) / (2 * (correct + incorrect)).
Proof.
  intros Hc Hi. unfold accuracy_formula. case_decide; [done |].
  rewrite round_half_up_div by lia. f_equal. lia.
Qed.

Lemma accuracy_formula_bounds (correct incorrect : Z) :
  0 ≤ correct → 0 ≤ incorrect → 0 ≤ accuracy_formula correct incorrect ≤ 100.
Proof.
  intros Hc Hi. rewrite accuracy_formula_integer by done.
  case_decide; [lia |]. split.
  - apply Z.div_pos; lia.
  - apply Z.lt_succ_r, Z.div_lt_upper_bound; lia.
Qed.

(** ** JavaScript arithmetic on the numbers that [getResult] meets *)

Lemma js_is_zero_inject (z : Z) : JS.is_zero (inject_Z z) = bool_decide (z = 0).
Proof.
  unfold JS.is_zero, Qeq_bool, inject_Z. simpl.
  case_bool_decide; [subst; reflexivity |].
  apply Z.eqb_neq. lia.
Qed.

Lemma js_div_of_Z (a b : Z) :
  b ≠ 0 → JS.div (JS.of_Z a) (JS.of_Z b) = JS.Fin (inject_Z a / inject_Z b).
Proof.
  intros Hb. unfold JS.div, JS.of_Z. rewrite js_is_zero_inject.
  by rewrite bool_decide_eq_false_2.
Qed.

Lemma js_or_zero_of_Z (z : Z) : JS.or_zero (JS.of_Z z) = JS.of_Z z.
Proof.
  unfold JS.or_zero, JS.of_Z. rewrite js_is_zero_inject.
  case_bool_decide; [by subst | done].
Qed.

(** ** binary64 *)

#[local] Arguments JS.pow2 : simpl never.

Lemma round_half_even_error (q : Q) :
  (inject_Z (JS.round_half_even q) - q <= 1 # 2)%Q
  ∧ (q - inject_Z (JS.round_half_even q) <= 1 # 2)%Q.
Proof.
  unfold JS.round_half_even.
  pose proof (Qfloor_le q) as Hlo. pose proof (Qlt_floor q) as Hhi.
  rewrite inject_Z_plus in Hhi. change (inject_Z 1) with 1%Q in Hhi.
  destruct (Qcompare_spec (q - inject_Z (Qfloor q)) (1 # 2)) as [He | Hl | Hg].
  - destruct (Z.even (Qfloor q)); cbv iota; rewrite ?inject_Z_plus;
      change (inject_Z 1) with 1%Q; split; lra.
  - split; lra.
  - rewrite inject_Z_plus. change (inject_Z 1) with 1%Q. split; lra.
Qed.

Lemma pow2_pos (e : Z) : (0 < JS.pow2 e)%Q.
Proof. by apply Qpower_0_lt. Qed.

Lemma pow2_add (a b : Z) : (JS.pow2 (a + b) == JS.pow2 a * JS.pow2 b)%Q.
Proof. by apply Qpower_plus. Qed.

Lemma pow2_Z (n : Z) : 0 ≤ n → (JS.pow2 n == inject_Z (2 ^ n))%Q.
Proof. intros. unfold JS.pow2. by rewrite Zpower_Qpower. Qed.

Lemma Qle_div_mult (a b c : Q) : (0 < c)%Q → (a <= b / c)%Q → (a * c <= b)%Q.
Proof.
  intros Hc H. apply (Qmult_le_compat_r _ _ c) in H; [| lra].
  rewrite (Qmult_comm (b / c)), Qmult_div_r in H; [exact H | lra].
Qed.

(** The exponent leaves at least 53 significant bits above the least
    exponent. *)
Lemma exponent_spec (a : Q) :
  (0 < a)%Q →
  JS.exponent a = -1074 ∨ (JS.pow2 52 * JS.pow2 (JS.exponent a) <= a)%Q.
Proof.
  intros Ha. unfold JS.exponent.
  set (k := Z.log2 (Qnum a) - Z.log2 (Z.pos (Qden a)) - 52).
  destruct (Z.max_spec (-1074) (if Qle_bool (JS.pow2 52) (a / JS.pow2 k) then k else k - 1))
    as [[_ ->] | [_ ->]]; [| by left].
  right.
  destruct (Qle_bool (JS.pow2 52) (a / JS.pow2 k)) eqn:Htest.
  - apply Qle_bool_iff in Htest. apply Qle_div_mult; [apply pow2_pos | exact Htest].
  - clear Htest. rewrite <- pow2_add.
    destruct a as [n d]. cbn [Qnum Qden] in k.
    assert (0 < n) as Hn by (unfold Qlt in Ha; cbn in Ha; lia).
    pose proof (Z.log2_spec n Hn) as [Hn1 _].
    pose proof (Z.log2_spec (Z.pos d) ltac:(lia)) as [_ Hd2].
    pose proof (Z.log2_nonneg n) as Hln. pose proof (Z.log2_nonneg (Z.pos d)) as Hld.
    set (L1 := Z.log2 n) in *. set (L2 := Z.log2 (Z.pos d)) in *.
    replace (52 + (k - 1)) with (L1 - (L2 + 1)) by (unfold k; lia).
    rewrite (Qmake_Qdiv n d). apply Qle_shift_div_l; [reflexivity |].
    assert (JS.pow2 (L1 - (L2 + 1)) * JS.pow2 (L2 + 1) == JS.pow2 L1)%Q as Hp.
    { rewrite <- pow2_add. by replace (L1 - (L2 + 1) + (L2 + 1)) with L1 by lia. }
    rewrite (pow2_Z L1) in Hp by lia. rewrite (pow2_Z (L2 + 1)) in Hp by lia.
    pose proof (pow2_pos (L1 - (L2 + 1))) as Hpos.
    assert (inject_Z (Z.pos d) <= inject_Z (2 ^ (L2 + 1)))%Q as Hd.
    { rewrite <- Zle_Qle. replace (L2 + 1) with (Z.succ L2) by lia. lia. }
    assert (inject_Z (2 ^ L1) <= inject_Z n)%Q as Hn' by (by rewrite <- Zle_Qle).
    apply (Qmult_le_l _ _ _ Hpos) in Hd.
    rewrite Hp in Hd. lra.
Qed.

Lemma tiny_small : (0 < tiny)%Q ∧ (tiny <= 1 # 1000000000000000000000000)%Q.
Proof.
  split; [apply pow2_pos |]. apply Qle_bool_imp_le. vm_compute. reflexivity.
Qed.

(** One rounding: a positive number moves by at most one part in [2^53] of
    itself, or by [tiny] below the normal range; it overflows only from
    [2^1023] on. *)
Lemma binary64_error (q : Q) :
  (0 < q)%Q →
  match JS.binary64 q with
  | JS.Fin y =>
      (q - (q * unit_roundoff + tiny) <= y)%Q ∧ (y <= q + (q * unit_roundoff + tiny))%Q
  | JS.PosInf => (JS.pow2 1023 <= q)%Q
  | _ => False
  end.
Proof.
  intros Hq. unfold JS.binary64.
  destruct (Qeq_bool q 0) eqn:Hz.
  { apply Qeq_bool_iff in Hz. lra. }
  assert (Qle_bool 0 q = true) as -> by (apply Qle_bool_iff; lra).
  pose proof (Qabs_pos q ltac:(lra)) as Habs.
  assert (0 < Qabs q)%Q as Ha by lra.
  generalize dependent (Qabs q). intros a Habs Ha.
  pose proof (exponent_spec a Ha) as He.
  pose proof (round_half_even_error (a / JS.pow2 (JS.exponent a))) as [Hup Hdn].
  pose proof (pow2_pos (JS.exponent a)) as Hpe.
  set (e := JS.exponent a) in *.
  set (m := inject_Z (JS.round_half_even (a / JS.pow2 e))) in *.
  assert (m * JS.pow2 e - a <= (1 # 2) * JS.pow2 e)%Q as Hup'.
  { apply (Qmult_le_compat_r _ _ (JS.pow2 e)) in Hup; [| lra].
    assert ((m - a / JS.pow2 e) * JS.pow2 e == m * JS.pow2 e - a)%Q as Heq by (field; lra).
    by rewrite Heq in Hup. }
  assert (a - m * JS.pow2 e <= (1 # 2) * JS.pow2 e)%Q as Hdn'.
  { apply (Qmult_le_compat_r _ _ (JS.pow2 e)) in Hdn; [| lra].
    assert ((a / JS.pow2 e - m) * JS.pow2 e == a - m * JS.pow2 e)%Q as Heq by (field; lra).
    by rewrite Heq in Hdn. }
  assert ((1 # 2) * JS.pow2 e <= q * unit_roundoff + tiny)%Q as Hhalf.
  { destruct He as [-> | He].
    - assert ((1 # 2) * JS.pow2 (-1074) == tiny)%Q as ->.
      { unfold tiny. change (-1074) with (1 + -1075). rewrite pow2_add.
        change (JS.pow2 1) with 2%Q. field. }
      unfold unit_roundoff.
      assert (0 <= q * (1 # 9007199254740992))%Q by (apply Qmult_le_0_compat; lra). lra.
    - pose proof (proj1 tiny_small).
      assert (JS.pow2 52 == 4503599627370496)%Q as Hc by reflexivity.
      rewrite Hc in He. unfold unit_roundoff. lra. }
  destruct (Qle_bool (JS.pow2 1024) (m * JS.pow2 e)) eqn:Hover.
  - apply Qle_bool_iff in Hover.
    assert (JS.pow2 1024 == 2 * JS.pow2 1023)%Q as H2
      by (change 1024 with (1 + 1023); by rewrite pow2_add).
    assert (2 <= JS.pow2 1023)%Q as Hbig by (apply Qle_bool_imp_le; vm_compute; reflexivity).
    pose proof (proj2 tiny_small) as Hsmall.
    unfold unit_roundoff in Hhalf. lra.
  - split; lra.
Qed.

Lemma binary64_zero (q : Q) : (q == 0)%Q → JS.binary64 q = JS.Fin 0.
Proof. intros Hq. unfold JS.binary64. by rewrite (proj2 (Qeq_bool_iff q 0) Hq). Qed.

(** [a / b] on a count and a positive constant. *)
Lemma fdiv_of_Z (a b : Z) :
  b ≠ 0 → JS.fdiv (JS.of_Z a) (JS.of_Z b) = JS.binary64 (inject_Z a / inject_Z b).
Proof. intros Hb. unfold JS.fdiv. by rewrite js_div_of_Z. Qed.

Lemma Qmult_cancel_le (t b : Q) : (0 < b)%Q → (t * b <= 0)%Q → (t <= 0)%Q.
Proof.
  intros Hb H. destruct (Qlt_le_dec 0 t) as [Ht|]; [| done].
  pose proof (Qmult_lt_0_compat _ _ Ht Hb). lra.
Qed.

(** The rate before [Math.round]: three roundings move the quotient by less
    than a half when at most [2^32] characters are correct. *)
Lemma raw_wpm_close (c s : Z) :
  0 ≤ c ≤ 2 ^ 32 → 1 ≤ s →
  ∃ v, JS.fdiv (JS.fdiv (JS.of_Z c) (JS.of_Z 5)) (JS.fdiv (JS.of_Z s) (JS.of_Z 60))
       = JS.Fin v
       ∧ let q := ((inject_Z c / 5) / (inject_Z s / 60))%Q in
         (q - (1 # 2) < v)%Q ∧ (v < q + (1 # 2))%Q
         ∧ (0 <= q)%Q ∧ (q <= inject_Z (12 * c))%Q.
Proof.
  intros [Hc0 Hc] Hs.
  rewrite !fdiv_of_Z by lia.
  change (inject_Z 5) with 5%Q. change (inject_Z 60) with 60%Q.
  set (A := (inject_Z c / 5)%Q). set (B := (inject_Z s / 60)%Q).
  assert (0 <= inject_Z c)%Q as HcQ0 by (change 0%Q with (inject_Z 0); by rewrite <- Zle_Qle).
  assert (inject_Z c <= 4294967296)%Q as HcQ
    by (change 4294967296%Q with (inject_Z (2 ^ 32)); by rewrite <- Zle_Qle).
  assert (1 <= inject_Z s)%Q as HsQ by (change 1%Q with (inject_Z 1); by rewrite <- Zle_Qle).
  assert (A == inject_Z c * (1 # 5))%Q as HA by (unfold A; field).
  assert (B == inject_Z s * (1 # 60))%Q as HB by (unfold B; field).
  pose proof tiny_small as [Ht0 Ht].
  assert (18446744073709551616 <= JS.pow2 1023)%Q as Hbig
    by (apply Qle_bool_imp_le; vm_compute; reflexivity).
  assert (0 < B)%Q as HBpos by lra.
  set (q := (A / B)%Q).
  assert (q * B == A)%Q as Hq by (unfold q; field; lra).
  assert (0 <= q)%Q as Hq0.
  { unfold q. apply Qle_shift_div_l; [done | lra]. }
  assert (q <= inject_Z (12 * c))%Q as Hq12.
  { rewrite inject_Z_mult. change (inject_Z 12) with 12%Q.
    assert ((1 # 60) * q <= B * q)%Q by (apply Qmult_le_compat_r; lra). lra. }
  assert (∀ x : Q, (x == 0)%Q → JS.fdiv (JS.Fin x) (JS.binary64 B) = JS.Fin 0) as Hzero.
  { intros x Hx. pose proof (binary64_error B HBpos) as Hb.
    destruct (JS.binary64 B) as [b| | |]; try done.
    destruct Hb as [Hb _]. unfold unit_roundoff in Hb.
    assert (0 < b)%Q as Hbpos by lra.
    unfold JS.fdiv, JS.div, JS.is_zero.
    rewrite (proj2 (Qeq_bool_iff x 0) Hx).
    destruct (Qeq_bool b 0) eqn:Hbz; [apply Qeq_bool_iff in Hbz; lra |].
    cbn [JS.round64]. apply binary64_zero. rewrite Hx. field. lra. }
  destruct (decide (c = 0)) as [-> | Hc1].
  { exists 0%Q. split.
    - rewrite (binary64_zero A) by (unfold A; reflexivity). by apply Hzero.
    - cbv zeta. fold A B q. change (inject_Z (12 * 0)) with 0%Q in *. repeat split; lra. }
  assert (1 <= inject_Z c)%Q as HcQ1
    by (change 1%Q with (inject_Z 1); rewrite <- Zle_Qle; lia).
  assert (0 < A)%Q as HApos by lra.
  pose proof (binary64_error A HApos) as Ha.
  pose proof (binary64_error B HBpos) as Hb.
  destruct (JS.binary64 A) as [a| | |]; try done; [| lra].
  destruct Ha as [Ha1 Ha2]. unfold unit_roundoff in Ha1, Ha2.
  assert (0 < a)%Q as Hapos by lra.
  destruct (JS.binary64 B) as [b| | |]; try done.
  - destruct Hb as [Hb1 Hb2]. unfold unit_roundoff in Hb1, Hb2.
    assert (0 < b)%Q as Hbpos by lra.
    unfold JS.fdiv, JS.div, JS.is_zero.
    destruct (Qeq_bool b 0) eqn:Hbz; [apply Qeq_bool_iff in Hbz; lra |].
    cbn [JS.round64].
    set (x := (a / b)%Q).
    assert (x * b == a)%Q as Hx by (unfold x; field; lra).
    assert (0 < x)%Q as Hxpos by (unfold x; apply Qlt_shift_div_l; lra).
    (* the quotient of the two rounded numbers against the exact one *)
    assert (x * (B * (1 - (1 # 4503599627370496))) <= x * b)%Q as Hlo
      by (rewrite !(Qmult_comm x); apply Qmult_le_compat_r; lra).
    assert (x * b <= x * (B * (1 + (1 # 4503599627370496))))%Q as Hhi
      by (rewrite !(Qmult_comm x); apply Qmult_le_compat_r; lra).
    assert (x * (1 - (1 # 4503599627370496)) <= q * (1 + (1 # 4503599627370496)))%Q as Hxq.
    { assert ((x * (1 - (1 # 4503599627370496)) - q * (1 + (1 # 4503599627370496))) <= 0)%Q;
        [| lra].
      apply (Qmult_cancel_le _ B HBpos). lra. }
    assert (q * (1 - (1 # 4503599627370496)) <= x * (1 + (1 # 4503599627370496)))%Q as Hqx.
    { assert ((q * (1 - (1 # 4503599627370496)) - x * (1 + (1 # 4503599627370496))) <= 0)%Q;
        [| lra].
      apply (Qmult_cancel_le _ B HBpos). lra. }
    rewrite inject_Z_mult in Hq12. change (inject_Z 12) with 12%Q in Hq12.
    pose proof (binary64_error x Hxpos) as Hv.
    destruct (JS.binary64 x) as [v| | |]; try done; [| lra].
    destruct Hv as [Hv1 Hv2]. unfold unit_roundoff in Hv1, Hv2.
    exists v. split; [done |]. cbv zeta. fold q.
    rewrite inject_Z_mult. change (inject_Z 12) with 12%Q.
    repeat split; lra.
  - (* the minutes overflow: the quotient is 0 *)
    exists 0%Q. split.
    + unfold JS.fdiv, JS.div. cbn [JS.round64]. by apply binary64_zero.
    + cbv zeta. fold q.
      assert (q * 18446744073709551616 <= q * B)%Q
        by (rewrite !(Qmult_comm q); apply Qmult_le_compat_r; lra).
      repeat split; lra.
Qed.

(** The rate of the engine is an integer, at most one off the exact value
    of the formula, when at most [2^32] characters are correct. *)
Lemma wpm_of_close (c s : Z) :
  0 ≤ c ≤ 2 ^ 32 →
  ∃ n, wpm_of c s = JS.of_Z n
       ∧ 0 ≤ n ≤ 12 * c
       ∧ wpm_formula c s - 1 ≤ n ≤ wpm_formula c s + 1.
Proof.
  intros Hc.
  destruct (raw_wpm_close c (Z.max 1 s) Hc ltac:(lia)) as (v & Hv & Hlo & Hhi & Hq0 & Hq12).
  cbv zeta in Hlo, Hhi, Hq0, Hq12.
  exists (JS.round_half_up v). split.
  { unfold wpm_of. rewrite Hv. cbn [JS.round]. apply js_or_zero_of_Z. }
  unfold wpm_formula, JS.round_half_up.
  set (q := ((inject_Z c / 5) / (inject_Z (Z.max 1 s) / 60))%Q) in *.
  pose proof (Qfloor_le (v + (1 # 2))) as Hn1.
  pose proof (Qlt_floor (v + (1 # 2))) as Hn2.
  pose proof (Qfloor_le (q + (1 # 2))) as Hf1.
  pose proof (Qlt_floor (q + (1 # 2))) as Hf2.
  set (n := Qfloor (v + (1 # 2))) in *. set (f := Qfloor (q + (1 # 2))) in *.
  rewrite inject_Z_plus in Hn2, Hf2. change (inject_Z 1) with 1%Q in Hn2, Hf2.
  assert (∀ a b : Z, (inject_Z a < inject_Z b + 1)%Q → a ≤ b) as Hint.
  { intros a b H. change 1%Q with (inject_Z 1) in H. rewrite <- inject_Z_plus in H.
    rewrite <- Zlt_Qlt in H. lia. }
  repeat split.
  - apply (Hint 0 n). change (inject_Z 0) with 0%Q. lra.
  - apply Hint. lra.
  - assert (f ≤ n + 1); [| lia]. apply Hint. rewrite inject_Z_plus.
    change (inject_Z 1) with 1%Q. lra.
  - assert (n ≤ f + 1); [| lia]. apply Hint. rewrite inject_Z_plus.
    change (inject_Z 1) with 1%Q. lra.
Qed.

(** ** The accuracy in binary64 *)

Lemma pow2_mono (a b : Z) : a ≤ b → (JS.pow2 a <= JS.pow2 b)%Q.
Proof. intros. apply Qpower_le_compat_l; [done | lra]. Qed.

Lemma Qfloor_unique (x : Q) (f : Z) :
  (inject_Z f <= x)%Q → (x < inject_Z f + 1)%Q → Qfloor x = f.
Proof.
  intros Hlo Hhi.
  pose proof (Qfloor_le x) as H1. pose proof (Qlt_floor x) as H2.
  rewrite inject_Z_plus in H2. change (inject_Z 1) with 1%Q in H2.
  assert (inject_Z (Qfloor x) < inject_Z (f + 1))%Q as Ha
    by (rewrite inject_Z_plus; change (inject_Z 1) with 1%Q; lra).
  assert (inject_Z f < inject_Z (Qfloor x + 1))%Q as Hb
    by (rewrite inject_Z_plus; change (inject_Z 1) with 1%Q; lra).
  rewrite <- Zlt_Qlt in Ha, Hb. lia.
Qed.

Lemma round_half_even_Z (q : Q) (z : Z) : (q == inject_Z z)%Q → JS.round_half_even q = z.
Proof.
  intros Hq. unfold JS.round_half_even.
  rewrite (Qfloor_comp _ _ Hq), Qfloor_Z.
  destruct (Qcompare_spec (q - inject_Z z) (1 # 2)) as [He | Hl | Hg]; [lra | done | lra].
Qed.

(** A half of a small integer is a binary64 number. *)
Lemma binary64_half_integer (q : Q) (k : Z) :
  0 < k ≤ 2 ^ 20 → (q == inject_Z k / 2)%Q →
  ∃ y, JS.binary64 q = JS.Fin y ∧ (y == q)%Q.
Proof.
  intros [Hk0 Hk] Hq0.
  assert (q == inject_Z k * (1 # 2))%Q as Hq by (rewrite Hq0; field).
  clear Hq0.
  assert (1 <= inject_Z k)%Q as Hk1 by (change 1%Q with (inject_Z 1); rewrite <- Zle_Qle; lia).
  assert (inject_Z k <= 1048576)%Q as Hk2
    by (change 1048576%Q with (inject_Z (2 ^ 20)); by rewrite <- Zle_Qle).
  assert (0 < q)%Q as Hpos by lra.
  unfold JS.binary64.
  destruct (Qeq_bool q 0) eqn:Hz; [apply Qeq_bool_iff in Hz; lra |].
  assert (Qle_bool 0 q = true) as -> by (apply Qle_bool_iff; lra).
  pose proof (Qabs_pos q ltac:(lra)) as Habs.
  generalize dependent (Qabs q). intros a Habs.
  assert (0 < a)%Q as Ha by lra.
  pose proof (exponent_spec a Ha) as He.
  set (e := JS.exponent a) in *.
  assert (e ≤ -1) as Hneg.
  { destruct He as [-> | He]; [lia |].
    destruct (decide (e ≤ -1)) as [|Hge]; [done |].
    pose proof (pow2_mono 0 e ltac:(lia)) as Hm. change (JS.pow2 0) with 1%Q in Hm.
    assert (JS.pow2 52 == 4503599627370496)%Q as Hc by reflexivity.
    rewrite Hc in He. lra. }
  pose proof (pow2_pos e) as Hpe.
  assert (JS.pow2 (-1 - e) * JS.pow2 e == 1 # 2)%Q as Hprod.
  { rewrite <- pow2_add. by replace (-1 - e + e) with (-1) by lia. }
  rewrite (pow2_Z (-1 - e)) in Hprod by lia.
  set (t := 2 ^ (-1 - e)) in *.
  assert (a / JS.pow2 e == inject_Z (k * t))%Q as Hint.
  { rewrite inject_Z_mult.
    assert (a == inject_Z k * inject_Z t * JS.pow2 e)%Q as ->
      by (rewrite <- Qmult_assoc, Hprod; lra).
    field. lra. }
  rewrite (round_half_even_Z _ _ Hint).
  assert (inject_Z (k * t) * JS.pow2 e == q)%Q as Hy.
  { rewrite inject_Z_mult, <- Qmult_assoc, Hprod. lra. }
  destruct (Qle_bool (JS.pow2 1024) _) eqn:Hover.
  - apply Qle_bool_iff in Hover.
    assert (18446744073709551616 <= JS.pow2 1024)%Q
      by (apply Qle_bool_imp_le; vm_compute; reflexivity).
    lra.
  - by eexists.
Qed.

Lemma inject_Z_minus (x y : Z) : (inject_Z (x - y) == inject_Z x - inject_Z y)%Q.
Proof. unfold Z.sub. by rewrite inject_Z_plus, inject_Z_opp. Qed.

(** [Math.round] of the percentage: the binary64 quotient of the two counts
    gives the integer that the exact quotient gives, for up to [2^40] marked
    slots. *)
Lemma accuracy_binary64 (c i : Z) :
  0 ≤ c → 0 ≤ i → 0 < c + i ≤ 2 ^ 40 →
  JS.round (JS.fdiv (JS.of_Z (c * 100)) (JS.of_Z (c + i)))
  = JS.round (JS.div (JS.of_Z (c * 100)) (JS.of_Z (c + i))).
Proof.
  intros Hc Hi [Hd0 Hd].
  rewrite fdiv_of_Z, js_div_of_Z by lia.
  assert (0 ≤ c * 100 ≤ 100 * (c + i)) as Hp by lia.
  generalize dependent (c * 100). generalize dependent (c + i). clear c i Hc Hi.
  intros d Hd0 Hd p Hp.
  set (P := inject_Z p). set (D := inject_Z d).
  set (q := (P / D)%Q).
  assert (1 <= D)%Q as HD1 by (change 1%Q with (inject_Z 1); unfold D; rewrite <- Zle_Qle; lia).
  assert (D <= 1099511627776)%Q as HD2
    by (change 1099511627776%Q with (inject_Z (2 ^ 40)); unfold D; by rewrite <- Zle_Qle).
  assert (0 <= P)%Q as HP0 by (change 0%Q with (inject_Z 0); unfold P; rewrite <- Zle_Qle; lia).
  assert (P <= 100 * D)%Q as HP100.
  { change 100%Q with (inject_Z 100). unfold P, D. rewrite <- inject_Z_mult, <- Zle_Qle. lia. }
  assert (q * D == P)%Q as Hq by (unfold q; field; lra).
  assert (0 <= q)%Q as Hq0 by (unfold q; apply Qle_shift_div_l; lra).
  assert (q <= 100)%Q as Hq100 by (unfold q; apply Qle_shift_div_r; lra).
  destruct (decide (p = 0)) as [-> | Hc1].
  { rewrite (binary64_zero q) by (unfold q, P; cbn; reflexivity).
    cbn [JS.round]. f_equal. apply Qfloor_comp.
    assert (q == 0)%Q as -> by (unfold q, P; cbn; reflexivity). reflexivity. }
  assert (1 <= P)%Q as HP1
    by (change 1%Q with (inject_Z 1); unfold P; rewrite <- Zle_Qle; lia).
  assert (0 < q)%Q as Hqpos by (unfold q; apply Qlt_shift_div_l; lra).
  cbn [JS.round]. unfold JS.round_half_up.
  pose proof (Qfloor_le (q + (1 # 2))) as Hf1.
  pose proof (Qlt_floor (q + (1 # 2))) as Hf2.
  rewrite inject_Z_plus in Hf2. change (inject_Z 1) with 1%Q in Hf2.
  set (f := Qfloor (q + (1 # 2))) in *.
  (* the distances of [q + 1/2] to [f] and to [f + 1], in units of [1 / 2D] *)
  set (lo := 2 * p + d - 2 * f * d).
  set (hi := 2 * (f + 1) * d - 2 * p - d).
  assert ((q + (1 # 2) - inject_Z f) * (2 * D) == inject_Z lo)%Q as Hlo.
  { unfold lo. rewrite !inject_Z_minus, !inject_Z_plus, !inject_Z_mult.
    fold P D. change (inject_Z 2) with 2%Q. lra. }
  assert ((inject_Z f + 1 - (q + (1 # 2))) * (2 * D) == inject_Z hi)%Q as Hhi.
  { unfold hi. rewrite !inject_Z_minus, !inject_Z_mult, !inject_Z_plus.
    fold P D. change (inject_Z 2) with 2%Q. change (inject_Z 1) with 1%Q. lra. }
  assert (1 ≤ hi) as Hhi1.
  { assert (0 < hi); [| lia]. rewrite Zlt_Qlt, <- Hhi. change (inject_Z 0) with 0%Q.
    apply Qmult_lt_0_compat; lra. }
  assert (0 ≤ lo) as Hlo0.
  { rewrite Zle_Qle, <- Hlo. change (inject_Z 0) with 0%Q.
    apply Qmult_le_0_compat; lra. }
  destruct (decide (lo = 0)) as [Htie | Hstrict].
  - (* a tie: the quotient is a half of an odd number *)
    rewrite Htie in Hlo. change (inject_Z 0) with 0%Q in Hlo.
    assert (q + (1 # 2) - inject_Z f == 0)%Q as Hmid.
    { destruct (Qeq_dec (q + (1 # 2) - inject_Z f) 0) as [|Hne]; [done |].
      apply Qmult_integral in Hlo as [|]; [done | lra]. }
    destruct (binary64_half_integer q (2 * f - 1)) as (y & -> & Hy).
    + assert (0 < inject_Z f)%Q as Hfpos by lra.
      assert (inject_Z f <= 101)%Q as Hfmax by lra.
      change 0%Q with (inject_Z 0) in Hfpos. change 101%Q with (inject_Z 101) in Hfmax.
      rewrite <- Zlt_Qlt in Hfpos. rewrite <- Zle_Qle in Hfmax. lia.
    + rewrite inject_Z_minus, inject_Z_mult.
      change (inject_Z 2) with 2%Q. change (inject_Z 1) with 1%Q. 
      assert ((2 * inject_Z f - 1) / 2 == (2 * inject_Z f - 1) * (1 # 2))%Q as -> by field.
      lra.
    + cbn [JS.round]. f_equal. apply Qfloor_comp. by rewrite Hy.
  - (* no tie: the error of the rounding is below the distance to the next
       half *)
    assert (1 ≤ lo) as Hlo1 by lia.
    pose proof (binary64_error q Hqpos) as Hy.
    pose proof tiny_small as [Ht0 Ht].
    destruct (JS.binary64 q) as [y| | |]; try done.
    + destruct Hy as [Hy1 Hy2]. unfold unit_roundoff in Hy1, Hy2.
      cbn [JS.round]. f_equal. apply Qfloor_unique.
      * assert ((inject_Z f - (y + (1 # 2))) <= 0)%Q; [| lra].
        apply (Qmult_cancel_le _ (2 * D)); [lra |].
        assert (1 <= inject_Z lo)%Q as Hl
          by (change 1%Q with (inject_Z 1); by rewrite <- Zle_Qle).
        rewrite <- Hlo in Hl.
        assert ((q - y) * (2 * D) <= 1)%Q; [| lra].
        assert ((q - y) * (2 * D) <= (1 # 4398046511104) * (2 * D))%Q; [| lra].
        apply Qmult_le_compat_r; lra.
      * assert ((y + (1 # 2) - (inject_Z f + 1)) * (2 * D) < 0)%Q as Hneg.
        { assert (1 <= inject_Z hi)%Q as Hh
            by (change 1%Q with (inject_Z 1); by rewrite <- Zle_Qle).
          rewrite <- Hhi in Hh.
          assert ((y - q) * (2 * D) <= (1 # 4398046511104) * (2 * D))%Q
            by (apply Qmult_le_compat_r; lra).
          lra. }
        destruct (Qlt_le_dec (y + (1 # 2)) (inject_Z f + 1)) as [|Hge]; [done |].
        assert (0 <= (y + (1 # 2) - (inject_Z f + 1)) * (2 * D))%Q
          by (apply Qmult_le_0_compat; lra).
        lra.
    + assert (18446744073709551616 <= JS.pow2 1023)%Q
        by (apply Qle_bool_imp_le; vm_compute; reflexivity).
      lra.
Qed.

(** ** Counting *)

(** Equality of two triples of counters, componentwise by arithmetic. *)
Ltac triple_eq := repeat apply (f_equal2 pair); lia.

Lemma engine_count_word (word : list ILetterData) (c i t : Z) :
  fold_left Engine.count_slot word (c, i, t)
  = (c + len (filter (λ s, status s = Some Correct) (filter (λ s, letter s ≠ "") word)),
     i + len (filter (λ s, status s = Some Incorrect) (filter (λ s, letter s ≠ "") word)),
     t + len (filter (λ s, letter s ≠ "") word)).
Proof.
  revert c i t. induction word as [|slot word IH]; intros c i t; simpl.
  - unfold len; simpl. triple_eq.
  - unfold Engine.count_slot at 1.
    destruct (decide (letter slot = "")) as [Hph|Hreal].
    + rewrite IH. rewrite (filter_cons_False (λ s, letter s ≠ "")) by tauto. done.
    + rewrite (filter_cons_True (λ s, letter s ≠ "")) by done.
      destruct (status slot) as [[]|] eqn:Hst; rewrite IH;
        rewrite !filter_cons, Hst; repeat case_decide; try done;
        unfold len; simpl; triple_eq.
Qed.

Lemma engine_count_grid (grid : list (list ILetterData)) (c i t : Z) :
  fold_left Engine.count_word grid (c, i, t)
  = (c + count_status Correct grid, i + count_status Incorrect grid,
     t + len (real_slots grid)).
Proof.
  revert c i t. unfold count_status, real_slots.
  induction grid as [|word grid IH]; intros c i t; simpl.
  - unfold len; simpl. triple_eq.
  - change (Engine.count_word (c, i, t) word)
      with (fold_left Engine.count_slot word (c, i, t)).
    rewrite engine_count_word, IH.
    rewrite !filter_app. unfold len. rewrite !length_app.
    triple_eq.
Qed.

Lemma count_status_nonneg (st : Status) (grid : list (list ILetterData)) :
  0 ≤ count_status st grid.
Proof. unfold count_status, len. lia. Qed.

(** [getResult] in closed form: the three counters are the counts of the
    real slots, the rate is computed on the correct ones, and the accuracy is
    the formula on the two marks. *)
Lemma engine_result_of (s : IGameState) :
  Engine.result_of s
  = {| correct := count_status Correct (data s);
       incorrect := count_status Incorrect (data s);
       total := if decide (0 < len (real_slots (data s)))
                then len (real_slots (data s)) else str_len (text s);
       wpm := wpm_of (count_status Correct (data s)) (counter s);
       accuracy := JS.of_Z (accuracy_formula (count_status Correct (data s))
                                             (count_status Incorrect (data s))) |}.
Proof.
  unfold Engine.result_of. rewrite engine_count_grid. cbv beta iota zeta.
  rewrite !Z.add_0_l.
  pose proof (count_status_nonneg Correct (data s)).
  pose proof (count_status_nonneg Incorrect (data s)).
  f_equal.
  unfold accuracy_formula. case_decide; [done |].
  by rewrite js_div_of_Z.
Qed.

(** ** The methods of the engine, run *)

Section EngineRuns.

Context {W E : Type} (host : Host W E).

Abbreviation TypingEngine := (@Engine.TypingEngine W E).

#[local] Arguments Engine.emitState : simpl never.
#[local] Arguments Engine.result_of : simpl never.
#[local] Arguments Engine.stop : simpl never.
#[local] Arguments Engine.endGame : simpl never.

Lemma emitState_loop_run cbs (eng : TypingEngine) (w : W) :
  Engine.emitState_loop host cbs eng w
  = (Normal (), eng, notified host cbs (Engine.state eng) w).
Proof.
  revert w. induction cbs as [|cb rest IH]; intros w; [reflexivity |].
  cbn [Engine.emitState_loop]. unfold mbind, Engine.M_bind, Engine.bind.
  unfold Engine.try_catch, Engine.getState, Engine.call, Engine.log_error.
  cbn [notified fold_left]. unfold guarded.
  destruct (cb (Engine.state eng) w) as [w' [e|]]; apply IH.
Qed.

Lemma emitState_run (eng : TypingEngine) (w : W) :
  Engine.emitState host eng w
  = (Normal (), eng,
     notified host (Engine.onStateChangeCallbacks eng) (Engine.state eng) w).
Proof.
  unfold Engine.emitState, mbind, Engine.M_bind, Engine.bind,
    Engine.getStateChangeCallbacks.
  apply emitState_loop_run.
Qed.

Lemma forEach_run {A} (cbs : list (A → W → W * option E)) (arg : A)
    (eng : TypingEngine) (w : W) :
  Engine.forEach cbs arg eng w
  = (match (announced cbs arg w).1 with
     | None => Normal ()
     | Some e => Throw (Thrown e)
     end, eng, (announced cbs arg w).2).
Proof.
  revert w. induction cbs as [|cb rest IH]; intros w; [reflexivity |].
  cbn [Engine.forEach announced]. unfold mbind, Engine.M_bind, Engine.bind, Engine.call.
  destruct (cb arg w) as [w' [e|]]; [reflexivity | apply IH].
Qed.

(** A game-over subscriber that throws ends the round of calls: whatever
    the subscribers after it are, they are not called. *)
Lemma forEach_throws {A} (cb : A → W → W * option E) rest (arg : A)
    (eng : TypingEngine) (w w' : W) (e : E) :
  cb arg w = (w', Some e) →
  Engine.forEach (cb :: rest) arg eng w = (Throw (Thrown e), eng, w').
Proof.
  intros Hcb. cbn [Engine.forEach]. unfold mbind, Engine.M_bind, Engine.bind, Engine.call.
  by rewrite Hcb.
Qed.

#[local] Arguments Engine.forEach : simpl never.

(** Unfolding of the plumbing of the monad. *)
Ltac plumb :=
  repeat progress
    unfold mbind, mret, Engine.M_bind, Engine.M_ret, Engine.bind, Engine.ret,
      Engine.throw, Engine.modify, Engine.getState, Engine.getIntervalId,
      Engine.set_intervalId, Engine.host_clearInterval, Engine.host_setInterval,
      Engine.getGameOverCallbacks, Engine.getResult, Engine.write_slot.

Lemma stop_run (eng : TypingEngine) (w : W) :
  ∃ w', Engine.stop host eng w
        = (Normal (), with_state eng (Engine.set_isRunning false (Engine.state eng)) None, w').
Proof.
  unfold Engine.stop. plumb. cbn.
  destruct eng as [s [id|] cbs gcbs]; cbn; rewrite emitState_run; eauto.
Qed.

Lemma endGame_run (eng : TypingEngine) (w : W) :
  ∃ w1,
    Engine.endGame host eng w
    = Engine.forEach (Engine.onGameOverCallbacks eng)
        (Engine.result_of (over (Engine.state eng)))
        (with_state eng (over (Engine.state eng)) None) w1.
Proof.
  unfold Engine.endGame.
  unfold mbind at 1. unfold Engine.M_bind at 1. unfold Engine.bind at 1.
  destruct (stop_run eng w) as [w' ->].
  plumb. cbn. rewrite emitState_run. cbn. eauto.
Qed.

Lemma endGame_engine (eng : TypingEngine) (w : W) :
  engine_of (Engine.endGame host eng w) = with_state eng (over (Engine.state eng)) None.
Proof.
  destruct (endGame_run eng w) as [w1 ->]. by rewrite forEach_run.
Qed.

(** Case analysis along the branches of a method. *)
Ltac branch :=
  match goal with
  | |- context [bool_decide ?P] => destruct (bool_decide_reflect P)
  | |- context [if isOver ?s then _ else _] => destruct (isOver s) eqn:?
  | |- context [if isRunning ?s then _ else _] => destruct (isRunning s) eqn:?
  | |- context [Engine.is_space ?e] => destruct (Engine.is_space e) eqn:?
  | |- context [match at_index ?l ?i with _ => _ end] => destruct (at_index l i) eqn:?
  | |- context [match slot_at ?l ?i ?j with _ => _ end] => destruct (slot_at l i j) eqn:?
  end.

Ltac crunch :=
  repeat first
    [ progress cbn
    | rewrite emitState_run
    | rewrite endGame_engine
    | rewrite len_alter_index
    | rewrite at_index_alter_index
    | match goal with
      | H : at_index ?l ?i = _ |- context [at_index ?l ?i] => rewrite H
      end
    | progress (unfold Engine.length_at; plumb)
    | reflexivity
    | congruence
    | lia
    | branch
    | case_decide ].

Lemma handleKey_engine (e : KeyboardEvent) (eng : TypingEngine) (w : W) :
  engine_of (Engine.handleKey host e eng w) = key_step e eng.
Proof.
  unfold Engine.handleKey, key_step, target, retreat, advance, ended, with_state, over,
    slot_at.
  plumb. crunch.
Qed.

Lemma stop_engine (eng : TypingEngine) (w : W) :
  engine_of (Engine.stop host eng w)
  = with_state eng (Engine.set_isRunning false (Engine.state eng)) None.
Proof. by destruct (stop_run eng w) as [w' ->]. Qed.

Lemma start_run (eng : TypingEngine) (w : W) :
  isRunning (Engine.state eng) = false →
  ∃ id w',
    Engine.start host eng w
    = (Normal (),
       with_state eng
         (Engine.set_counter 0
            (Engine.set_isOver false (Engine.set_isRunning true (Engine.state eng))))
         (Some id),
       w').
Proof.
  intros Hrun. unfold Engine.start. plumb. rewrite Hrun. cbn.
  rewrite emitState_run. cbn.
  destruct (setInterval host _) as [id w']. eauto.
Qed.

Lemma start_running (eng : TypingEngine) (w : W) :
  isRunning (Engine.state eng) = true →
  Engine.start host eng w = (Normal (), eng, w).
Proof. intros Hrun. unfold Engine.start. plumb. by rewrite Hrun. Qed.

Lemma reset_run (eng : TypingEngine) (w : W) :
  ∃ w', Engine.reset host eng w
        = (Normal (), with_state eng Engine.getInitialState None, w').
Proof.
  unfold Engine.reset. plumb. cbn.
  destruct eng as [s [id|] cbs gcbs]; cbn; rewrite emitState_run; eauto.
Qed.

Lemma createNewGame_run textSize timeLimit (eng : TypingEngine) (w : W) :
  ∃ txt id w',
    Engine.createNewGame host textSize timeLimit eng w
    = (Normal (),
       with_state eng
         {| text := txt;
            data := Engine.createTextdata txt;
            timeLimit := timeLimit;
            counter := 0;
            isRunning := false;
            isOver := false;
            currentPos := {| Coord.word := 0; Coord.letter := 0 |} |}
         id,
       w')
    ∧ txt = (generateText host (default 100 textSize) w).1
    ∧ id = (if isRunning (Engine.state eng) then None else Engine.intervalId eng).
Proof.
  unfold Engine.createNewGame, Engine.host_generateText. plumb.
  destruct (generateText host (default 100 textSize) w) as [txt w1] eqn:Hgen. cbn.
  destruct (isRunning (Engine.state eng)) eqn:Hrun.
  - destruct (stop_run eng w1) as [w2 ->]. cbn. rewrite emitState_run.
    unfold with_state. cbn. eauto 10.
  - cbn. rewrite emitState_run. unfold with_state. eauto 10.
Qed.

(** A tick that sees the limit reached ends the game; the subscribers of
    the game's end are handed the result of the state the engine is left
    in. *)
Lemma tick_limit_run (eng : TypingEngine) (w : W) :
  let s := Engine.set_counter (counter (Engine.state eng) + 1) (Engine.state eng) in
  Engine.limit_reached s = true →
  ∃ w1,
    Engine.tick host eng w
    = Engine.forEach (Engine.onGameOverCallbacks eng)
        (Engine.result_of (over s)) (with_state eng (over s) None) w1.
Proof.
  intros s Hlimit. unfold Engine.tick. plumb. cbn. fold s. rewrite Hlimit.
  destruct (endGame_run (with_state eng s (Engine.intervalId eng)) w) as [w1 Hend].
  exists w1. exact Hend.
Qed.

Lemma tick_engine (eng : TypingEngine) (w : W) :
  let s := Engine.set_counter (counter (Engine.state eng) + 1) (Engine.state eng) in
  engine_of (Engine.tick host eng w) = with_state eng (over s) None
  ∨ engine_of (Engine.tick host eng w) = with_state eng s (Engine.intervalId eng).
Proof.
  intros s. subst s. unfold Engine.tick. plumb. cbn.
  unfold with_state.
  repeat first
    [ progress cbn
    | rewrite emitState_run
    | rewrite endGame_engine
    | progress (unfold Engine.length_at; plumb)
    | (by left) | (by right)
    | branch
    | match goal with
      | |- context [if Engine.limit_reached ?s then _ else _] =>
          destruct (Engine.limit_reached s)
      end ].
Qed.

(** *** The result calculator *)

(** [getResult] returns, and leaves engine and host as they are. *)
Lemma getResult_run (eng : TypingEngine) (w : W) :
  Engine.getResult eng w = (Normal (Engine.result_of (Engine.state eng)), eng, w).
Proof. reflexivity. Qed.

(** X29. The rate of the engine depends on the number of real slots marked
    correct and on the counter alone: it is the expression of C3 on them,
    each of its three quotients rounded to binary64. For up to [2^32]
    correct characters it is an integer at most one off the exact value of
    the formula. The two differ: three correct characters after 24 seconds
    give 1 where the exact quotient 1.5 rounds to 2. *)
Lemma getResult_wpm (eng : TypingEngine) (w : W) :
  (∃ r, Engine.getResult eng w = (Normal r, eng, w)
        ∧ correct r = count_status Correct (data (Engine.state eng))
        ∧ wpm r = wpm_of (correct r) (counter (Engine.state eng))
        ∧ (correct r ≤ 2 ^ 32 →
           ∃ n, wpm r = JS.of_Z n
                ∧ wpm_formula (correct r) (counter (Engine.state eng)) - 1 ≤ n
                  ≤ wpm_formula (correct r) (counter (Engine.state eng)) + 1))
  ∧ wpm_of 3 24 = JS.of_Z 1 ∧ wpm_formula 3 24 = 2.
Proof.
  split; [| split; vm_compute; reflexivity].
  eexists. split; [apply getResult_run |]. rewrite engine_result_of.
  cbn [correct wpm]. repeat split.
  intros Hc.
  destruct (wpm_of_close (count_status Correct (data (Engine.state eng)))
              (counter (Engine.state eng))) as (n & Hn & _ & Hclose).
  { split; [apply count_status_nonneg | exact Hc]. }
  by exists n.
Qed.

(** C4. The accuracy of the computed result is 0 when no real slot is
    marked, and otherwise the rounded percentage of the marked real slots
    that are correct; it lies between 0 and 100. *)
Theorem getResult_accuracy (eng : TypingEngine) (w : W) :
  ∃ r, Engine.getResult eng w = (Normal r, eng, w)
       ∧ correct r = count_status Correct (data (Engine.state eng))
       ∧ incorrect r = count_status Incorrect (data (Engine.state eng))
       ∧ accuracy r
         = JS.of_Z (if decide (correct r + incorrect r = 0) then 0
                    else JS.round_half_up
                           (inject_Z (correct r * 100)
                            / inject_Z (correct r + incorrect r)))
       ∧ ∃ a, accuracy r = JS.of_Z a ∧ 0 ≤ a ≤ 100.
Proof.
  eexists. split; [apply getResult_run |]. rewrite engine_result_of. cbn.
  repeat split; try reflexivity.
  eexists. split; [reflexivity |].
  apply accuracy_formula_bounds; apply count_status_nonneg.
Qed.

(** C8, amended. The total of the computed result is the number of real
    slots of the grid, and the length of the text when that number is
    zero. *)
Theorem getResult_total (eng : TypingEngine) (w : W) :
  ∃ r, Engine.getResult eng w = (Normal r, eng, w)
       ∧ total r
         = if decide (len (real_slots (data (Engine.state eng))) = 0)
           then str_len (text (Engine.state eng))
           else len (real_slots (data (Engine.state eng))).
Proof.
  eexists. split; [apply getResult_run |]. rewrite engine_result_of. cbn.
  unfold len. repeat case_decide; try reflexivity; lia.
Qed.

(** *** Lifecycle *)

(** C10. [start()] on an engine that is not running sets [isRunning],
    clears [isOver] and puts the counter back to 0; text, grid (marks
    included), time limit and caret stay. On a running engine it changes
    nothing. *)
Theorem start_frame (eng : TypingEngine) (w : W) :
  let s := Engine.state eng in
  (isRunning s = false →
   ∃ id w',
     Engine.start host eng w
     = (Normal (),
        with_state eng
          {| text := text s;
             data := data s;
             timeLimit := timeLimit s;
             counter := 0;
             isRunning := true;
             isOver := false;
             currentPos := currentPos s |}
          (Some id),
        w'))
  ∧ (isRunning s = true → Engine.start host eng w = (Normal (), eng, w)).
Proof.
  intros s. split; intros Hrun.
  - destruct (start_run eng w Hrun) as (id & w' & ->). eauto.
  - by apply start_running.
Qed.

(** X25. The engine does what C5 says: with a time limit set, the tick
    that brings the counter to the limit or beyond ends the game, and the
    subscribers get the result of the grid as it stands. *)
Lemma tick_time_limit (eng : TypingEngine) (w : W) (limit : Z) :
  let s := Engine.state eng in
  let s' := over (Engine.set_counter (counter s + 1) s) in
  timeLimit s = Some limit → limit ≠ 0 → limit ≤ counter s + 1 →
  (∃ w1, Engine.tick host eng w
         = Engine.forEach (Engine.onGameOverCallbacks eng) (Engine.result_of s')
             (with_state eng s' None) w1)
  ∧ engine_of (Engine.tick host eng w) = with_state eng s' None
  ∧ isOver s' = true ∧ isRunning s' = false
  ∧ data s' = data s ∧ currentPos s' = currentPos s.
Proof.
  intros s s' Hlimit Hnz Hle.
  assert (Engine.limit_reached (Engine.set_counter (counter s + 1) s) = true) as Hreached.
  { unfold Engine.limit_reached. cbn. fold s. rewrite Hlimit.
    rewrite bool_decide_eq_true_2 by done.
    by destruct (Z.eqb_spec limit 0). }
  destruct (tick_limit_run eng w Hreached) as [w1 Htick].
  split; [by exists w1 |].
  split; [| done].
  rewrite Htick, forEach_run. reflexivity.
Qed.

(** *** Keys *)

(** The two guards of [handleKey]: nothing happens on an empty grid or
    once the game is over. *)
Lemma handleKey_guarded (e : KeyboardEvent) (eng : TypingEngine) (w : W) :
  data (Engine.state eng) = [] ∨ isOver (Engine.state eng) = true →
  Engine.handleKey host e eng w = (Normal (), eng, w).
Proof.
  intros Hguard. unfold Engine.handleKey. plumb.
  destruct Hguard as [-> | ->]; cbn; [reflexivity |].
  by case_bool_decide.
Qed.

(** One slot of a grid rewritten: the slot holds the new value and the
    others are as they were. *)
Lemma rewritten_alter (f : ILetterData → ILetterData) (i j : Z)
    (grid : list (list ILetterData)) (slot : ILetterData) :
  slot_at grid i j = Some slot →
  rewritten f (Some (i, j)) grid (alter_index (alter_index f j) i grid).
Proof.
  intros Hslot. unfold rewritten. rewrite Hslot.
  unfold slot_at in *.
  destruct (at_index grid i) as [word|] eqn:Hword; [| done].
  assert (alter_index f j word = alter_index (λ _, f slot) j word) as Hinner.
  { unfold alter_index. case_decide; [| done].
    apply list_alter_ext; [| done]. intros y Hy.
    apply at_index_Some in Hslot as [_ Hslot]. rewrite Hslot in Hy. by injection Hy as <-. }
  split_and!.
  - unfold alter_index at 1 3. case_decide; [| done].
    apply list_alter_ext; [| done]. intros y Hy.
    apply at_index_Some in Hword as [_ Hword]. rewrite Hword in Hy. by injection Hy as <-.
  - rewrite at_index_alter_index, decide_True, Hword by done. cbn.
    by rewrite at_index_alter_index, decide_True, Hslot.
  - intros i' j' Hne. rewrite at_index_alter_index.
    destruct (decide (i = i')) as [<- | Hi]; [| done].
    rewrite Hword. cbn. rewrite at_index_alter_index.
    destruct (decide (j = j')) as [<- | Hj]; [done | done].
Qed.

(** A slot that is there and is not. *)
Ltac slot_absurd :=
  exfalso; cbn [fst snd] in *;
  repeat match goal with
         | H : is_Some _ |- _ => destruct H as [? H]
         | H : ¬ is_Some _ |- _ => rewrite <- eq_None_not_Some in H
         end;
  try congruence;
  unfold slot_at in *;
  repeat match goal with
         | H : context [match at_index ?l ?i with _ => _ end] |- _ =>
             let Heq := fresh in destruct (at_index l i) eqn:Heq
         end;
  try congruence;
  repeat match goal with
         | H : at_index _ _ = Some _ |- _ => apply mk_is_Some, at_index_is_Some in H
         | H : at_index _ _ = None |- _ => apply at_index_None in H
         end;
  lia.

(** The grid after a key, in the engine. *)
Lemma key_step_grid (e : KeyboardEvent) (eng : TypingEngine) :
  let s := Engine.state eng in
  data (Engine.state (key_step e eng))
  = if bool_decide (len (data s) = 0) || isOver s then data s
    else match classify e with
         | KEscape | KSpace => data s
         | KBackspace =>
             match behind s with
             | Some (i, j) =>
                 if bool_decide (is_Some (slot_at (data s) i j))
                 then alter_index (alter_index Engine.clear_slot j) i (data s)
                 else data s
             | None => data s
             end
         | KPrintable =>
             if bool_decide (is_Some (slot_at (data s) (target s).1 (target s).2))
             then alter_index (alter_index (Engine.mark_slot (key e)) (target s).2)
                    (target s).1 (data s)
             else data s
         end.
Proof.
  intros s.
  unfold classify, key_step, behind, target, retreat, advance, ended, with_state, over.
  fold s.
  repeat first
    [ progress cbn
    | reflexivity
    | congruence
    | branch ].
  all: slot_absurd.
Qed.

Lemma rewritten_ext (f g : ILetterData → ILetterData) (i j : Z)
    (grid grid' : list (list ILetterData)) (slot : ILetterData) :
  slot_at grid i j = Some slot → f slot = g slot →
  rewritten f (Some (i, j)) grid grid' → rewritten g (Some (i, j)) grid grid'.
Proof. unfold rewritten. intros -> <-. done. Qed.

(** The store of the hook lands on a slot of the grid, or the update is not
    made. *)
Lemma hook_updateGameData_grid (offset : ITextCoord) (patch : ILetterData → ILetterData)
    (increment : bool) (game : IGame) :
  match slot_at (data game) (Coord.word offset) (Coord.letter offset) with
  | Some _ =>
      ∃ game', Hook.updateGameData offset patch increment game = Hook.Updated game'
               ∧ data game' = alter_index (alter_index patch (Coord.letter offset))
                                (Coord.word offset) (data game)
  | None => ∀ game', Hook.updateGameData offset patch increment game ≠ Hook.Updated game'
  end.
Proof.
  unfold slot_at, Hook.updateGameData.
  destruct (at_index (data game) (Coord.word offset)) as [word|]; [| done].
  destruct (at_index word (Coord.letter offset)); [| done].
  by eexists.
Qed.

#[local] Arguments rewritten : simpl never.

(** C2, amended. What a key does to the grid. In the engine, on a game that
    holds a text and is not over, Escape and Space leave the grid as it is,
    Backspace clears the marks of the slot it steps back to, and any other
    key marks the slot it addresses, the caret's or, from one past the end
    of a word, the first of the next word: typed, and correct exactly when
    the letter of the slot is the key. In the hook Space leaves the grid as
    it is, Backspace clears the slot it steps back to, and every other key,
    Escape too, marks the slot it addresses when there is one and raises
    when there is none. Neither looks at the letter of the slot: a
    placeholder marked by a non-empty key is typed and incorrect. *)
Theorem handleKey_marks (e : KeyboardEvent) (eng : TypingEngine) (w : W)
    (game : IGame) :
  let s := Engine.state eng in
  let grid' := data (Engine.state (engine_of (Engine.handleKey host e eng w))) in
  let cleared (slot : ILetterData) :=
    {| letter := letter slot; typed := false; status := None |} in
  let marked (slot : ILetterData) :=
    {| letter := letter slot;
       typed := true;
       status := Some (if decide (letter slot = key e) then Correct else Incorrect) |} in
  (if bool_decide (len (data s) = 0) || isOver s then grid' = data s
   else match classify e with
        | KEscape | KSpace => grid' = data s
        | KBackspace => rewritten cleared (behind s) (data s) grid'
        | KPrintable => rewritten marked (Some (target s)) (data s) grid'
        end)
  ∧ (if bool_decide (key e = "Backspace") then
       match behind game ≫= (λ p, slot_at (data game) p.1 p.2) with
       | Some _ =>
           ∃ game', Hook.handleKeyDown e game = Hook.Updated game'
                    ∧ rewritten cleared (behind game) (data game) (data game')
       | None =>
           ∀ game', Hook.handleKeyDown e game = Hook.Updated game' →
                    data game' = data game
       end
     else if Hook.is_space e then
       ∃ game', Hook.handleKeyDown e game = Hook.Updated game'
                ∧ data game' = data game
     else
       match slot_at (data game) (target game).1 (target game).2 with
       | Some _ =>
           ∃ game', Hook.handleKeyDown e game = Hook.Updated game'
                    ∧ rewritten marked (Some (target game)) (data game) (data game')
       | None => Hook.handleKeyDown e game = Hook.Raises
       end)
  ∧ ∀ slot, letter slot = "" → key e ≠ "" →
      marked slot = {| letter := ""; typed := true; status := Some Incorrect |}.
Proof.
  intros s grid' cleared marked. subst grid'. rewrite handleKey_engine.
  split_and!.
  - rewrite key_step_grid. fold s.
    destruct (bool_decide (len (data s) = 0) || isOver s); [done |].
    destruct (classify e); try done.
    + destruct (behind s) as [[i j]|]; [| done].
      case_bool_decide as Hslot.
      * destruct Hslot as [slot Hslot].
        exact (rewritten_alter Engine.clear_slot i j _ slot Hslot).
      * unfold rewritten. by rewrite <- eq_None_not_Some in Hslot; rewrite Hslot.
    + destruct (target s) as [i j]. cbn [fst snd].
      case_bool_decide as Hslot.
      * destruct Hslot as [slot Hslot].
        exact (rewritten_alter (Engine.mark_slot (key e)) i j _ slot Hslot).
      * unfold rewritten. by rewrite <- eq_None_not_Some in Hslot; rewrite Hslot.
  - unfold Hook.handleKeyDown.
    destruct (bool_decide_reflect (key e = "Backspace")) as [Hback | Hback].
    { (* Backspace *)
      assert (∀ i j,
                match slot_at (data game) i j with
                | Some _ =>
                    ∃ game',
                      Hook.updateGameData {| Coord.word := i; Coord.letter := j |}
                        cleared false game = Hook.Updated game'
                      ∧ rewritten cleared (Some (i, j)) (data game) (data game')
                | None =>
                    ∀ game',
                      Hook.updateGameData {| Coord.word := i; Coord.letter := j |}
                        cleared false game = Hook.Updated game' →
                      data game' = data game
                end) as Hstore.
      { intros i j.
        pose proof (hook_updateGameData_grid {| Coord.word := i; Coord.letter := j |}
                      cleared false game) as Hupd.
        cbn [Coord.word Coord.letter] in Hupd.
        destruct (slot_at (data game) i j) as [slot|] eqn:Hslot.
        - destruct Hupd as (game' & -> & Hdata). exists game'. split; [done |].
          rewrite Hdata. by apply (rewritten_alter cleared i j _ slot).
        - intros game' Hgame'. by destruct (Hupd game'). }
      unfold behind.
      destruct (bool_decide_reflect (Coord.letter (currentPos game) = 0)) as [Hl | Hl].
      - destruct (bool_decide_reflect (Coord.word (currentPos game) = 0)) as [Hw | Hw].
        + cbn. by intros game' [= <-].
        + destruct (at_index (data game) (Z.max 0 (Coord.word (currentPos game) - 1)))
            as [word|]; cbn; [| done].
          apply Hstore.
      - cbn. apply Hstore. }
    destruct (Hook.is_space e).
    { (* Space *)
      repeat case_bool_decide; by eexists. }
    (* any other key *)
    unfold target.
    destruct (at_index (data game) (Coord.word (currentPos game))) as [word|] eqn:Hword;
      [| by unfold slot_at; cbn; rewrite Hword].
    set (rolled := bool_decide (len word = Coord.letter (currentPos game))).
    set (i := if rolled then Coord.word (currentPos game) + 1
              else Coord.word (currentPos game)).
    set (j := if rolled then 0 else Coord.letter (currentPos game)).
    replace (if rolled then (Coord.word (currentPos game) + 1, 0)
             else (Coord.word (currentPos game), Coord.letter (currentPos game)))
      with (i, j) by (unfold i, j; by destruct rolled).
    cbn [fst snd].
    destruct (slot_at (data game) i j) as [slot|] eqn:Hslot; unfold slot_at in Hslot.
    + destruct (at_index (data game) i) as [word'|] eqn:Hword'; [| done].
      rewrite Hslot.
      pose proof (hook_updateGameData_grid {| Coord.letter := j; Coord.word := i |}
                    (λ _, marked slot) true game) as Hupd.
      cbn [Coord.word Coord.letter] in Hupd. unfold slot_at in Hupd.
      rewrite Hword', Hslot in Hupd.
      destruct Hupd as (game' & Hupd & Hdata). exists game'. split; [exact Hupd |].
      rewrite Hdata.
      apply (rewritten_ext (λ _, marked slot) marked i j _ _ slot);
        [by unfold slot_at; rewrite Hword' | done |].
      apply (rewritten_alter (λ _, marked slot) i j _ slot).
      by unfold slot_at; rewrite Hword'.
    + destruct (at_index (data game) i) as [word'|]; [| done]. by rewrite Hslot.
  - intros slot Hph Hkey. unfold marked. rewrite Hph.
    by rewrite decide_False.
Qed.

(** C7, amended. A character pressed where the caret stands in the grid but
    the addressed slot does not exist: [handleKey] returns with engine and
    host unchanged, unless the caret stands at the terminal position of a
    game that is not over; there it ends the game, grid, caret and counter
    unchanged, and raises no error of its own. *)
Theorem handleKey_missing_slot (e : KeyboardEvent) (eng : TypingEngine) (w : W) :
  let s := Engine.state eng in
  let r := Engine.handleKey host e eng w in
  classify e = KPrintable →
  caret_in_grid s →
  slot_at (data s) (target s).1 (target s).2 = None →
  if at_terminal s && negb (isOver s)
  then engine_of r = with_state eng (over s) None
       ∧ completion_of r ≠ Throw TypeError
       ∧ (Engine.onGameOverCallbacks eng = [] → completion_of r = Normal ())
  else r = (Normal (), eng, w).
Proof.
  intros s r Hclass Hcaret Hslot. subst r.
  destruct (decide (data s = [])) as [Hempty|Hfull].
  { rewrite handleKey_guarded by (by left).
    unfold at_terminal, at_index. rewrite Hempty.
    by case_decide. }
  assert (is_Some (at_index (data s) (Coord.word (currentPos s)))) as [word Hword].
  { apply at_index_is_Some. unfold caret_in_grid in Hcaret. unfold len in *.
    destruct (data s); [done | cbn in *; lia]. }
  unfold classify in Hclass.
  destruct (bool_decide_reflect (key e = "Escape")); [done |].
  destruct (bool_decide_reflect (key e = "Backspace")); [done |].
  destruct (Engine.is_space e) eqn:Hspace; [done |].
  unfold at_terminal, target in *. rewrite Hword in *.
  unfold Engine.handleKey. plumb. cbn. fold s.
  assert (len (data s) ≠ 0) as Hlen.
  { apply mk_is_Some, at_index_is_Some in Hword. lia. }
  rewrite (bool_decide_eq_false_2 _ Hlen).
  destruct (isOver s) eqn:Hover; [by rewrite andb_false_r |].
  rewrite andb_true_r.
  rewrite (bool_decide_eq_false_2 (key e = "Escape")) by done.
  rewrite (bool_decide_eq_false_2 (key e = "Backspace")) by done.
  rewrite Hspace. unfold Engine.length_at. plumb. cbn. fold s. rewrite Hword.
  destruct (bool_decide_reflect (len word = Coord.letter (currentPos s))) as [Hend|Hmid];
    cbn in *.
  - destruct (bool_decide_reflect (len (data s) ≤ Coord.word (currentPos s) + 1))
      as [Hlast|Hnext]; cbn.
    + destruct (endGame_run eng w) as [w1 ->]. rewrite forEach_run.
      split; [reflexivity |]. split.
      * unfold completion_of. cbn. by destruct (announced _ _ _).1.
      * intros ->. reflexivity.
    + by rewrite Hslot.
  - by rewrite Hslot.
Qed.

(** [handleKey] raises a [TypeError] exactly where it reads the length of a
    word that does not exist. *)
Lemma handleKey_TypeError (e : KeyboardEvent) (eng : TypingEngine) (w : W) :
  completion_of (Engine.handleKey host e eng w) = Throw TypeError
  ↔ key_raises e (Engine.state eng) = true.
Proof.
  unfold Engine.handleKey, key_raises, slot_at. plumb.
  repeat first
    [ progress cbn
    | rewrite emitState_run
    | rewrite len_alter_index
    | rewrite at_index_alter_index
    | match goal with
      | H : at_index ?l ?i = _ |- context [at_index ?l ?i] => rewrite H
      | |- context [Engine.endGame host ?eng ?w] =>
          let w1 := fresh "w" in
          destruct (endGame_run eng w) as [w1 ->]; rewrite forEach_run;
          destruct (announced _ _ _).1
      end
    | progress (unfold Engine.length_at; plumb)
    | (split; [discriminate | discriminate])
    | (split; reflexivity)
    | congruence
    | branch
    | case_decide ].
Qed.

Lemma key_raises_caret (e : KeyboardEvent) (s : IGameState) :
  caret_in_grid s → key_raises e s = false.
Proof.
  unfold caret_in_grid, key_raises. intros Hin.
  destruct (bool_decide_reflect (len (data s) = 0)); [done |].
  assert (∀ i, 0 ≤ i < len (data s) → at_index (data s) i ≠ None) as Hword.
  { intros i Hi Hnone%at_index_None. lia. }
  repeat first
    [ progress cbn
    | reflexivity
    | branch
    | match goal with
      | H : at_index (data s) ?i = None |- _ =>
          exfalso; apply (Hword i); [unfold len in *; lia | exact H]
      end
    | (by destruct (isOver s)) ].
Qed.

(** In a state whose caret stands in the grid, and so in every state that a
    session reaches, no key makes [handleKey] raise a [TypeError]. *)
Lemma handleKey_no_TypeError (e : KeyboardEvent) (eng : TypingEngine) (w : W) :
  caret_in_grid (Engine.state eng) →
  completion_of (Engine.handleKey host e eng w) ≠ Throw TypeError.
Proof.
  intros Hin Hraise%handleKey_TypeError.
  by rewrite key_raises_caret in Hraise.
Qed.

(** *** The caret stays in the grid *)

Lemma key_step_caret (e : KeyboardEvent) (eng : TypingEngine) :
  caret_in_grid (Engine.state eng) → caret_in_grid (Engine.state (key_step e eng)).
Proof.
  unfold caret_in_grid, key_step, target, retreat, advance, ended, with_state, over.
  intros Hin.
  repeat first
    [ progress cbn
    | rewrite len_alter_index
    | assumption
    | lia
    | branch ].
  unfold len in *. lia.
Qed.

Lemma perform_caret (a : Engine.action) (eng : TypingEngine) (w : W) :
  caret_in_grid (Engine.state eng) →
  caret_in_grid (Engine.state (engine_of (Engine.perform host a eng w))).
Proof.
  intros Hin. destruct a as [textSize timeLimit| | | |e| |cb|cb]; cbn [Engine.perform].
  - destruct (createNewGame_run textSize timeLimit eng w) as (txt & id & w' & -> & _ & _).
    unfold caret_in_grid. cbn. lia.
  - destruct (isRunning (Engine.state eng)) eqn:Hrun.
    + by rewrite start_running.
    + destruct (start_run eng w Hrun) as (id & w' & ->). exact Hin.
  - rewrite stop_engine. exact Hin.
  - destruct (reset_run eng w) as [w' ->]. unfold caret_in_grid. cbn. lia.
  - rewrite handleKey_engine. by apply key_step_caret.
  - plumb. destruct (Engine.intervalId eng); [| exact Hin].
    destruct (tick_engine eng w) as [-> | ->]; exact Hin.
  - exact Hin.
  - exact Hin.
Qed.

Lemma run_caret (acts : list Engine.action) (eng : TypingEngine) (w : W) :
  caret_in_grid (Engine.state eng) →
  caret_in_grid (Engine.state (Engine.run host acts eng w).1).
Proof.
  revert eng w. induction acts as [|a rest IH]; intros eng w Hin; [exact Hin |].
  cbn [Engine.run].
  pose proof (perform_caret a eng w Hin) as Hstep.
  destruct (Engine.perform host a eng w) as [[c eng'] w']. by apply IH.
Qed.

(** In every state that a session reaches, the word of the caret exists
    unless the grid is empty. *)
Lemma reachable_caret (eng : TypingEngine) :
  Engine.reachable host eng → caret_in_grid (Engine.state eng).
Proof.
  intros (acts & w0 & w & Hrun).
  pose proof (run_caret acts Engine.new_engine w0) as Hin.
  rewrite Hrun in Hin. apply Hin. unfold caret_in_grid. cbn. lia.
Qed.

(** *** The timer handle *)

Lemma timer_held_ended (eng : TypingEngine) (s : IGameState) :
  timer_held (with_state eng (over s) None).
Proof.
  unfold timer_held. cbn. split; [| intros [? _]; discriminate].
  split; [discriminate | intros [? ?]; discriminate].
Qed.

Lemma timer_held_same (eng : TypingEngine) (s : IGameState) :
  isRunning s = isRunning (Engine.state eng) →
  isOver s = isOver (Engine.state eng) →
  timer_held eng → timer_held (with_state eng s (Engine.intervalId eng)).
Proof. unfold timer_held. cbn. by intros -> ->. Qed.

Lemma key_step_timer (e : KeyboardEvent) (eng : TypingEngine) :
  timer_held eng → timer_held (key_step e eng).
Proof.
  intros Hheld. unfold key_step, ended, target.
  repeat first
    [ assumption
    | apply timer_held_ended
    | (apply timer_held_same; [by unfold retreat, advance; try case_bool_decide
                              | by unfold retreat, advance; try case_bool_decide
                              | assumption])
    | branch
    | progress cbn ].
Qed.

Lemma perform_timer (a : Engine.action) (eng : TypingEngine) (w : W) :
  timer_held eng → timer_held (engine_of (Engine.perform host a eng w)).
Proof.
  intros Hheld. destruct a as [textSize timeLimit| | | |e| |cb|cb]; cbn [Engine.perform].
  - destruct (createNewGame_run textSize timeLimit eng w)
      as (txt & id & w' & -> & _ & ->).
    destruct Hheld as [Hrun _]. unfold timer_held. cbn.
    split; [| intros [? _]; discriminate].
    destruct (isRunning (Engine.state eng)).
    + split; [discriminate | intros [? ?]; discriminate].
    + split; [discriminate |]. intros Hid. by apply Hrun in Hid.
  - destruct (isRunning (Engine.state eng)) eqn:Hrun.
    + by rewrite start_running.
    + destruct (start_run eng w Hrun) as (id & w' & ->). unfold timer_held. cbn.
      split; [by split; eauto | intros [_ ?]; discriminate].
  - rewrite stop_engine. unfold timer_held. cbn.
    split; [| intros [? _]; discriminate].
    split; [discriminate | intros [? ?]; discriminate].
  - destruct (reset_run eng w) as [w' ->]. unfold timer_held. cbn.
    split; [| intros [? _]; discriminate].
    split; [discriminate | intros [? ?]; discriminate].
  - rewrite handleKey_engine. by apply key_step_timer.
  - plumb. destruct (Engine.intervalId eng) eqn:Hid; [| exact Hheld].
    destruct (tick_engine eng w) as [-> | ->].
    + apply timer_held_ended.
    + by apply timer_held_same.
  - exact Hheld.
  - exact Hheld.
Qed.

(** X3. In every state that a session reaches, the engine holds a timer
    handle exactly while the game runs, and the game is never both running
    and over. *)
Theorem reachable_timer (eng : TypingEngine) :
  Engine.reachable host eng → timer_held eng.
Proof.
  intros (acts & w0 & w & Hrun).
  assert (∀ acts (eng0 : TypingEngine) w0,
            timer_held eng0 → timer_held (Engine.run host acts eng0 w0).1) as Hall.
  { clear. induction acts as [|a rest IH]; intros eng0 w0 Hheld; [exact Hheld |].
    cbn [Engine.run].
    pose proof (perform_timer a eng0 w0 Hheld) as Hstep.
    destruct (Engine.perform host a eng0 w0) as [[c eng'] w']. by apply IH. }
  pose proof (Hall acts Engine.new_engine w0) as Hheld. rewrite Hrun in Hheld.
  apply Hheld. unfold timer_held. cbn.
  split; [| intros [? _]; discriminate].
  split; [discriminate | intros [? ?]; discriminate].
Qed.

(** X4. In every state that a session reaches, the caret stands in the grid
    and no key makes [handleKey] raise a [TypeError]. *)
Theorem reachable_safe (eng : TypingEngine) :
  Engine.reachable host eng →
  caret_in_grid (Engine.state eng)
  ∧ ∀ e w, completion_of (Engine.handleKey host e eng w) ≠ Throw TypeError.
Proof.
  intros (acts & w0 & w & Hrun).
  assert (caret_in_grid (Engine.state eng)) as Hin.
  { pose proof (run_caret acts Engine.new_engine w0) as Hin.
    rewrite Hrun in Hin. apply Hin. unfold caret_in_grid. cbn. lia. }
  split; [exact Hin |]. intros e w'. by apply handleKey_no_TypeError.
Qed.

(** *** What a key and a tick leave alone *)

Lemma letters_alter_index (f : ILetterData → ILetterData) (w l : Z)
    (grid : list (list ILetterData)) :
  (∀ slot, letter (f slot) = letter slot) →
  letters (alter_index (alter_index f l) w grid) = letters grid.
Proof.
  intros Hletter. unfold letters, alter_index.
  destruct (decide (0 ≤ w)); [| done].
  rewrite (list_fmap_alter _ _ id).
  - by apply list_alter_id.
  - apply Forall_forall. intros word _. cbn.
    destruct (decide (0 ≤ l)); [| done].
    rewrite (list_fmap_alter _ _ id).
    + by apply list_alter_id.
    + apply Forall_forall. intros slot _. apply Hletter.
Qed.

(** X5. A key never touches the text, the time limit, the counter or the
    subscribers, and it keeps the shape of the grid: every word keeps its
    slots and every slot its letter. *)
Theorem handleKey_frame (e : KeyboardEvent) (eng : TypingEngine) (w : W) :
  let s := Engine.state eng in
  let eng' := engine_of (Engine.handleKey host e eng w) in
  text (Engine.state eng') = text s
  ∧ timeLimit (Engine.state eng') = timeLimit s
  ∧ counter (Engine.state eng') = counter s
  ∧ letters (data (Engine.state eng')) = letters (data s)
  ∧ Engine.onStateChangeCallbacks eng' = Engine.onStateChangeCallbacks eng
  ∧ Engine.onGameOverCallbacks eng' = Engine.onGameOverCallbacks eng.
Proof.
  intros s eng'. subst eng'. rewrite handleKey_engine.
  unfold key_step, target, retreat, advance, ended, with_state, over. fold s.
  repeat first
    [ progress cbn
    | rewrite letters_alter_index by done
    | done
    | branch ].
Qed.

(** X6. A tick adds one second and touches nothing else of the game but its
    end: text, grid, time limit and caret stay, and when the tick ends the
    game the timer handle is released. It never raises a [TypeError]. *)
Theorem tick_frame (eng : TypingEngine) (w : W) :
  let s := Engine.state eng in
  let r := Engine.tick host eng w in
  let s' := Engine.state (engine_of r) in
  counter s' = counter s + 1
  ∧ text s' = text s ∧ data s' = data s ∧ timeLimit s' = timeLimit s
  ∧ currentPos s' = currentPos s
  ∧ ((isOver s' = isOver s ∧ isRunning s' = isRunning s
      ∧ Engine.intervalId (engine_of r) = Engine.intervalId eng)
     ∨ (isOver s' = true ∧ isRunning s' = false
        ∧ Engine.intervalId (engine_of r) = None))
  ∧ completion_of r ≠ Throw TypeError.
Proof.
  intros s r s'. subst s' r. split_and!;
    try (destruct (tick_engine eng w) as [-> | ->]; cbn; by eauto).
  unfold Engine.tick. plumb. cbn.
  repeat first
    [ progress cbn
    | rewrite emitState_run
    | discriminate
    | match goal with
      | |- context [Engine.endGame host ?eng ?w] =>
          let w1 := fresh "w" in
          destruct (endGame_run eng w) as [w1 ->]; rewrite forEach_run;
          destruct (announced _ _ _).1
      | |- context [if Engine.limit_reached ?s then _ else _] =>
          destruct (Engine.limit_reached s)
      | H : at_index ?l ?i = None, H' : ?i = len ?l - 1 |- _ =>
          apply at_index_None in H; unfold len in *; lia
      end
    | progress (unfold Engine.length_at; plumb)
    | branch ].
Qed.

(** *** Typing and taking back *)

Lemma alter_index_undo {A} (f g : A → A) (i : Z) (l : list A) (x : A) :
  at_index l i = Some x → g (f x) = x →
  alter_index g i (alter_index f i l) = l.
Proof.
  intros [Hi Hx]%at_index_Some Hundo. unfold alter_index.
  rewrite !decide_True by done. rewrite list_alter_alter_eq.
  apply list_eq. intros j. rewrite list_lookup_alter.
  case_decide; [subst j | done]. rewrite Hx. cbn. by rewrite Hundo.
Qed.

Lemma clear_mark_unmarked (k : string) (slot : ILetterData) :
  unmarked slot → Engine.clear_slot (Engine.mark_slot k slot) = slot.
Proof. destruct slot as [l t st]. by intros [[= ->] [= ->]]. Qed.

(** X7. Backspace takes back a character: on a game that is not over, a
    character typed on an unmarked slot under the caret, other than the last
    slot of the text, followed by Backspace, leaves the engine as it was
    before the two keys. *)
Theorem type_then_backspace (e back : KeyboardEvent) (slot : ILetterData)
    (eng : TypingEngine) (w w' : W) :
  let s := Engine.state eng in
  let wordOffset := Coord.word (currentPos s) in
  let letterOffset := Coord.letter (currentPos s) in
  classify e = KPrintable → key back = "Backspace" →
  isOver s = false →
  slot_at (data s) wordOffset letterOffset = Some slot → unmarked slot →
  (wordOffset = len (data s) - 1 →
   is_Some (slot_at (data s) wordOffset (letterOffset + 1))) →
  engine_of (Engine.handleKey host back
               (engine_of (Engine.handleKey host e eng w)) w') = eng.
Proof.
  intros s wordOffset letterOffset Hclass Hback Hover Hslot Hunmarked Hnext.
  rewrite !handleKey_engine.
  unfold classify in Hclass.
  destruct (bool_decide_reflect (key e = "Escape")) as [|Hesc]; [done |].
  destruct (bool_decide_reflect (key e = "Backspace")) as [|Hbs]; [done |].
  destruct (Engine.is_space e) eqn:Hspace; [done |].
  unfold slot_at in Hslot, Hnext. fold s in Hslot.
  destruct (at_index (data s) wordOffset) as [word|] eqn:Hword; [| done].
  pose proof Hslot as [Hl Hlookup]%at_index_Some.
  assert (0 ≤ letterOffset < len word) as Hrange
    by (apply at_index_is_Some; eauto).
  assert (0 ≤ wordOffset < len (data s)) as Hwrange
    by (apply at_index_is_Some; eauto).
  assert (key_step e eng
          = with_state eng (advance (key e) wordOffset letterOffset s)
              (Engine.intervalId eng)) as ->.
  { unfold key_step, target. fold s wordOffset letterOffset.
    rewrite Hover, Hword, Hspace.
    rewrite (bool_decide_eq_false_2 (len (data s) = 0)) by lia.
    rewrite (bool_decide_eq_false_2 (key e = "Escape")) by done.
    rewrite (bool_decide_eq_false_2 (key e = "Backspace")) by done.
    rewrite (bool_decide_eq_false_2 (len word = letterOffset)) by lia.
    cbn. unfold slot_at. rewrite Hword, Hslot.
    destruct (bool_decide_reflect (wordOffset = len (data s) - 1)) as [Hlast|]; [| done].
    specialize (Hnext Hlast). apply at_index_is_Some in Hnext.
    by rewrite (bool_decide_eq_false_2 (len word ≤ letterOffset + 1)) by lia. }
  unfold key_step, with_state, advance, retreat. cbn.
  rewrite len_alter_index, Hover, Hback.
  rewrite (bool_decide_eq_false_2 (len (data s) = 0)) by lia.
  rewrite (bool_decide_eq_false_2 (letterOffset + 1 = 0)) by lia.
  rewrite (bool_decide_eq_false_2 ("Backspace" = "Escape")) by done.
  rewrite (bool_decide_eq_true_2 ("Backspace" = "Backspace")) by done.
  cbn. replace (letterOffset + 1 - 1) with letterOffset by lia.
  rewrite (bool_decide_eq_true_2 (is_Some _)).
  2:{ unfold slot_at. rewrite at_index_alter_index, decide_True, Hword by done.
      cbn [fmap option_fmap option_map].
      rewrite at_index_alter_index, decide_True, Hslot by done. by eexists. }
  cbn. unfold alter_index at 1 3.
  rewrite !decide_True by lia. rewrite list_alter_alter_eq.
  assert (alter (alter_index Engine.clear_slot letterOffset
                 ∘ alter_index (Engine.mark_slot (key e)) letterOffset)
            (Z.to_nat wordOffset) (data s) = data s) as ->.
  { apply list_eq. intros j. rewrite list_lookup_alter.
    case_decide; [subst j | done].
    apply at_index_Some in Hword as [_ ->]. cbn. f_equal.
    eapply alter_index_undo; [exact Hslot |]. by apply clear_mark_unmarked. }
  destruct eng as [[] ? ? ?]. cbn in *. subst. unfold wordOffset, letterOffset, s. cbn.
  by destruct currentPos0.
Qed.

(** X8. Space in the last word does not leave it: with the caret past the
    first slot of the last word of a game that is not over, Space puts the
    caret back on the first slot of that word; the grid keeps its marks. *)
Theorem space_in_last_word (e : KeyboardEvent) (eng : TypingEngine) (w : W) :
  let s := Engine.state eng in
  let s' := Engine.state (engine_of (Engine.handleKey host e eng w)) in
  classify e = KSpace → isOver s = false →
  0 < len (data s) →
  Coord.word (currentPos s) = len (data s) - 1 →
  Coord.letter (currentPos s) ≠ 0 →
  currentPos s' = {| Coord.word := len (data s) - 1; Coord.letter := 0 |}
  ∧ data s' = data s ∧ isOver s' = false ∧ isRunning s' = isRunning s.
Proof.
  intros s s' Hclass Hover Hlen Hword Hletter. subst s'.
  rewrite handleKey_engine. unfold classify in Hclass.
  destruct (bool_decide_reflect (key e = "Escape")) as [|Hesc]; [done |].
  destruct (bool_decide_reflect (key e = "Backspace")) as [|Hbs]; [done |].
  destruct (Engine.is_space e) eqn:Hspace; [| done].
  unfold key_step. fold s. rewrite Hover, Hspace.
  rewrite (bool_decide_eq_false_2 (len (data s) = 0)) by lia.
  rewrite (bool_decide_eq_false_2 (key e = "Escape")) by done.
  rewrite (bool_decide_eq_false_2 (key e = "Backspace")) by done.
  rewrite (bool_decide_eq_false_2 _ Hletter). cbn.
  repeat split; try done. f_equal. lia.
Qed.

(** *** Subscribers *)

Lemma notified_app (cbs1 cbs2 : list (IGameState → W → W * option E))
    (st : IGameState) (w : W) :
  notified host (cbs1 ++ cbs2) st w = notified host cbs2 st (notified host cbs1 st w).
Proof. unfold notified. apply fold_left_app. Qed.

(** X9. A state notification reaches every subscriber: [emitState] returns
    normally and leaves the engine as it is, and each subscriber is called,
    after the ones before it and whatever they did, an error it throws being
    logged before the next one is called. *)
Theorem emitState_isolated (eng : TypingEngine) (w : W) cbs1 cb cbs2 :
  Engine.onStateChangeCallbacks eng = cbs1 ++ cb :: cbs2 →
  let st := Engine.state eng in
  let before := notified host cbs1 st w in
  Engine.emitState host eng w
  = (Normal (), eng,
     notified host cbs2 st
       (match cb st before with
        | (w', None) => w'
        | (w', Some e) => console_error host (Thrown e) w'
        end)).
Proof.
  intros Hcbs st before. rewrite emitState_run, Hcbs, notified_app. reflexivity.
Qed.

(** X10. A game-over subscriber that throws cuts the round short: [endGame]
    completes the transition (not running, over, timer released), the error
    leaves [endGame], and the subscribers after the throwing one are not
    called: the host ends as if they were not subscribed. *)
Theorem endGame_throwing_subscriber (eng : TypingEngine) (w : W) cb rest (e : E) :
  Engine.onGameOverCallbacks eng = cb :: rest →
  (∀ r w0, (cb r w0).2 = Some e) →
  let alone := {| Engine.state := Engine.state eng;
                  Engine.intervalId := Engine.intervalId eng;
                  Engine.onStateChangeCallbacks := Engine.onStateChangeCallbacks eng;
                  Engine.onGameOverCallbacks := [cb] |} in
  completion_of (Engine.endGame host eng w) = Throw (Thrown e)
  ∧ engine_of (Engine.endGame host eng w) = with_state eng (over (Engine.state eng)) None
  ∧ world_of (Engine.endGame host eng w) = world_of (Engine.endGame host alone w).
Proof.
  intros Hcbs Hthrows alone.
  assert (∀ (eng0 : TypingEngine) w0,
            Engine.endGame host eng0 w0
            = Engine.forEach (Engine.onGameOverCallbacks eng0)
                (Engine.result_of (over (Engine.state eng0)))
                (with_state eng0 (over (Engine.state eng0)) None)
                (notified host (Engine.onStateChangeCallbacks eng0) (over (Engine.state eng0))
                   (world_of (Engine.stop host eng0 w0)))) as Hend.
  { intros eng0 w0. unfold Engine.endGame.
    unfold mbind at 1. unfold Engine.M_bind at 1. unfold Engine.bind at 1.
    destruct (stop_run eng0 w0) as [w1 Hstop]. rewrite Hstop.
    plumb. cbn. rewrite emitState_run. reflexivity. }
  assert (∀ w0, world_of (Engine.stop host alone w0) = world_of (Engine.stop host eng w0))
    as Hstop.
  { intros w0. unfold Engine.stop. plumb. cbn.
    destruct (Engine.intervalId eng); cbn; by rewrite !emitState_run. }
  rewrite !Hend, Hstop, Hcbs. cbn [Engine.onGameOverCallbacks alone].
  set (r := Engine.result_of _). set (w1 := notified _ _ _ _).
  specialize (Hthrows r w1).
  destruct (cb r w1) as [w2 o] eqn:Hcb. cbn in Hthrows. subst o.
  rewrite !(forEach_throws cb _ r _ w1 w2 e Hcb). done.
Qed.

(** *** The result *)

Lemma count_status_exclusive (grid : list (list ILetterData)) :
  count_status Correct grid + count_status Incorrect grid ≤ len (real_slots grid).
Proof.
  unfold count_status. generalize (real_slots grid). intros l. unfold len.
  induction l as [|slot l IH]; [done |].
  rewrite !filter_cons. destruct (status slot) as [[]|];
    repeat case_decide; try done; cbn [length]; lia.
Qed.

(** X11. The result stays within the grid: the counts are not negative, no
    more slots are judged than the grid has real slots, and the rate, for up
    to [2^32] correct characters, is an integer between 0 and twelve words
    per correct character. *)
Theorem getResult_bounds (eng : TypingEngine) (w : W) :
  ∃ r, Engine.getResult eng w = (Normal r, eng, w)
       ∧ 0 ≤ correct r ∧ 0 ≤ incorrect r
       ∧ correct r + incorrect r ≤ len (real_slots (data (Engine.state eng)))
       ∧ (real_slots (data (Engine.state eng)) ≠ [] →
          correct r + incorrect r ≤ total r)
       ∧ (correct r ≤ 2 ^ 32 →
          ∃ n, wpm r = JS.of_Z n ∧ 0 ≤ n ≤ 12 * correct r).
Proof.
  eexists. split; [apply getResult_run |]. rewrite engine_result_of.
  cbn [correct incorrect total wpm].
  pose proof (count_status_nonneg Correct (data (Engine.state eng))) as Hc.
  pose proof (count_status_nonneg Incorrect (data (Engine.state eng))) as Hi.
  pose proof (count_status_exclusive (data (Engine.state eng))) as Hsum.
  split_and!; try done.
  - intros Hreal. rewrite decide_True; [done |].
    unfold len. destruct (real_slots _); [done | cbn; lia].
  - intros Hmax.
    destruct (wpm_of_close (count_status Correct (data (Engine.state eng)))
                (counter (Engine.state eng))) as (n & Hn & Hbound & _); [done |].
    by exists n.
Qed.

Lemma real_slots_alter_placeholder (f : ILetterData → ILetterData) (w l : Z)
    (grid : list (list ILetterData)) (slot : ILetterData) :
  slot_at grid w l = Some slot → letter slot = "" → letter (f slot) = "" →
  real_slots (alter_index (alter_index f l) w grid) = real_slots grid.
Proof.
  unfold slot_at, real_slots. intros Hslot Hph Hph'.
  destruct (at_index grid w) as [word|] eqn:Hword; [| done].
  assert (filter (λ s, letter s ≠ "") (alter_index f l word)
          = filter (λ s, letter s ≠ "") word) as Hrow.
  { apply at_index_Some in Hslot as [Hl Hlookup]. unfold alter_index.
    rewrite decide_True by done.
    revert Hlookup. generalize (Z.to_nat l). clear Hl Hword.
    induction word as [|x word IH]; intros [|i] Hlookup; try done.
    - cbn in Hlookup. injection Hlookup as ->.
      change (alter f 0%nat (slot :: word)) with (f slot :: word).
      rewrite !filter_cons, !decide_False; [done | | ]; tauto.
    - change (alter f (S i) (x :: word)) with (x :: alter f i word).
      rewrite !filter_cons. rewrite (IH i) by done. done. }
  apply at_index_Some in Hword as [Hw Hlookup]. unfold alter_index at 1.
  rewrite decide_True by done.
  revert Hlookup. generalize (Z.to_nat w). clear Hw.
  induction grid as [|row grid IH]; intros [|i] Hlookup; try done.
  - cbn in Hlookup. injection Hlookup as ->.
    change (alter (alter_index f l) 0%nat (word :: grid))
      with (alter_index f l word :: grid).
    cbn [concat]. by rewrite !filter_app, Hrow.
  - change (alter (alter_index f l) (S i) (row :: grid))
      with (row :: alter (alter_index f l) i grid).
    cbn [concat]. rewrite !filter_app. by rewrite (IH i).
Qed.

(** X12. A character typed on a placeholder counts for nothing: when the
    slot that a character addresses is a placeholder, the result after the
    key is the result before it. *)
Theorem placeholder_mark_uncounted (e : KeyboardEvent) (slot : ILetterData)
    (eng : TypingEngine) (w : W) :
  let s := Engine.state eng in
  classify e = KPrintable →
  slot_at (data s) (target s).1 (target s).2 = Some slot → letter slot = "" →
  Engine.result_of (Engine.state (engine_of (Engine.handleKey host e eng w)))
  = Engine.result_of s.
Proof.
  intros s Hclass Hslot Hph. rewrite handleKey_engine.
  assert (real_slots (alter_index (alter_index (Engine.mark_slot (key e)) (target s).2)
                        (target s).1 (data s)) = real_slots (data s)) as Hreal.
  { eapply real_slots_alter_placeholder; [exact Hslot | exact Hph | exact Hph]. }
  unfold classify in Hclass.
  destruct (bool_decide_reflect (key e = "Escape")) as [|Hesc]; [done |].
  destruct (bool_decide_reflect (key e = "Backspace")) as [|Hbs]; [done |].
  destruct (Engine.is_space e) eqn:Hspace; [done |].
  rewrite !engine_result_of.
  unfold key_step. fold s. rewrite Hspace.
  rewrite (bool_decide_eq_false_2 (key e = "Escape")) by done.
  rewrite (bool_decide_eq_false_2 (key e = "Backspace")) by done.
  destruct (target s) as [w' l'] eqn:Htarget. cbn [fst snd] in *.
  unfold ended, with_state, over, advance, count_status.
  unfold real_slots in *.
  repeat first
    [ progress cbn
    | rewrite Hreal
    | rewrite Hslot
    | reflexivity
    | match goal with
      | |- context [match at_index ?l ?i with _ => _ end] => destruct (at_index l i) eqn:?
      | |- context [bool_decide ?P] => destruct (bool_decide_reflect P)
      | |- context [if isOver ?s then _ else _] => destruct (isOver s) eqn:?
      end ].
Qed.

End EngineRuns.

(** ** The engine on the example sessions *)

Lemma example_reachable (acts : list (@Engine.action (list string) string)) :
  Engine.reachable Example.host (Example.engine_after acts).
Proof.
  exists acts, [], (Engine.run Example.host acts Engine.new_engine []).2.
  unfold Example.engine_after. by destruct (Engine.run _ _ _ _).
Qed.

(** C2, counterexample. In a session that the engine reaches, a letter typed
    where the space is due marks the placeholder of the word. *)
Lemma placeholder_marked_by_letter :
  Engine.reachable Example.host Example.letter_for_space
  ∧ slot_at (data (Engine.state Example.letter_for_space)) 0 3
    = Some {| letter := ""; typed := true; status := Some Incorrect |}.
Proof. split; [apply example_reachable | reflexivity]. Qed.

(** "cat" is typed and the caret stands on the placeholder of the word. In
    the engine an "x" marks the placeholder typed and incorrect, and
    Backspace clears the "t" before it; in the hook Escape marks the
    placeholder as any character does. *)
Lemma handleKey_marks_witness :
  slot_at (data (Engine.state (engine_of
             (Engine.handleKey Example.host (press "x") Example.word_typed [])))) 0 3
  = Some {| letter := ""; typed := true; status := Some Incorrect |}
  ∧ slot_at (data (Engine.state (engine_of
               (Engine.handleKey Example.host (press "Backspace") Example.word_typed []))))
      0 2
    = Some {| letter := "t"; typed := false; status := None |}
  ∧ ∃ game', Hook.handleKeyDown (press "Escape") Example.hook_word_typed
             = Hook.Updated game'
             ∧ slot_at (data game') 0 3
               = Some {| letter := ""; typed := true; status := Some Incorrect |}.
Proof.
  assert (bool_decide (len (data (Engine.state Example.word_typed)) = 0)
          || isOver (Engine.state Example.word_typed) = false) as Hlive
    by (vm_compute; reflexivity).
  assert (target (Engine.state Example.word_typed) = (0, 3)) as Htarget
    by (vm_compute; reflexivity).
  assert (slot_at (data (Engine.state Example.word_typed)) 0 3 = Some placeholder)
    as Hcaret by (vm_compute; reflexivity).
  assert (behind (Engine.state Example.word_typed) = Some (0, 2)) as Hbehind
    by (vm_compute; reflexivity).
  assert (slot_at (data (Engine.state Example.word_typed)) 0 2
          = Some {| letter := "t"; typed := true; status := Some Correct |})
    as Hbefore by (vm_compute; reflexivity).
  assert (target Example.hook_word_typed = (0, 3)) as Htarget'
    by (vm_compute; reflexivity).
  assert (slot_at (data Example.hook_word_typed) 0 3 = Some placeholder)
    as Hcaret' by (vm_compute; reflexivity).
  pose proof (handleKey_marks Example.host (press "x") Example.word_typed []
                Example.hook_word_typed) as (Hx & _ & _).
  pose proof (handleKey_marks Example.host (press "Backspace") Example.word_typed []
                Example.hook_word_typed) as (Hback & _ & _).
  pose proof (handleKey_marks Example.host (press "Escape") Example.word_typed []
                Example.hook_word_typed) as (_ & Hesc & _).
  rewrite Hlive in Hx, Hback.
  change (classify (press "x")) with KPrintable in Hx.
  change (classify (press "Backspace")) with KBackspace in Hback.
  change (bool_decide (key (press "Escape") = "Backspace")) with false in Hesc.
  change (Hook.is_space (press "Escape")) with false in Hesc.
  cbv iota in Hx, Hback, Hesc.
  unfold rewritten in Hx, Hback, Hesc.
  rewrite Htarget, Hcaret in Hx. rewrite Hbehind, Hbefore in Hback.
  rewrite Htarget' in Hesc. cbn [fst snd] in Hesc. rewrite Hcaret' in Hesc.
  destruct Hx as (_ & Hx & _). destruct Hback as (_ & Hback & _).
  destruct Hesc as (game' & Hupd & _ & Hesc & _).
  split_and!; [exact Hx | exact Hback |].
  exists game'. split; [exact Hupd | exact Hesc].
Defined.

(** C6. A game that was created and not started is not running, and a key
    changes it all the same: the first letter is marked and the caret
    moves. *)
Theorem handleKey_before_start :
  let after := engine_of (Engine.handleKey Example.host (press "c") Example.ready []) in
  isRunning (Engine.state Example.ready) = false
  ∧ isOver (Engine.state Example.ready) = false
  ∧ slot_at (data (Engine.state Example.ready)) 0 0
    = Some {| letter := "c"; typed := false; status := None |}
  ∧ currentPos (Engine.state Example.ready) = {| Coord.word := 0; Coord.letter := 0 |}
  ∧ slot_at (data (Engine.state after)) 0 0
    = Some {| letter := "c"; typed := true; status := Some Correct |}
  ∧ currentPos (Engine.state after) = {| Coord.word := 0; Coord.letter := 1 |}.
Proof. repeat split; reflexivity. Qed.

(** C7, counterexample. The caret of a restarted game stands one past the
    last slot; the slot that a character addresses there does not exist, and
    the character ends the game. *)
Lemma character_at_terminal_ends_game :
  let s := Engine.state Example.restarted in
  let after := engine_of (Engine.handleKey Example.host (press "x") Example.restarted []) in
  Engine.reachable Example.host Example.restarted
  ∧ slot_at (data s) (target s).1 (target s).2 = None
  ∧ (isRunning s = true ∧ isOver s = false)
  ∧ (isRunning (Engine.state after) = false ∧ isOver (Engine.state after) = true).
Proof. split; [apply example_reachable |]. repeat split; reflexivity. Qed.

(** The character of the example above: the game ends, no error is raised. *)
Lemma handleKey_missing_slot_witness :
  let s := Engine.state Example.restarted in
  let r := Engine.handleKey Example.host (press "x") Example.restarted [] in
  engine_of r = with_state Example.restarted (over s) None
  ∧ completion_of r ≠ Throw TypeError
  ∧ (Engine.onGameOverCallbacks Example.restarted = [] → completion_of r = Normal ()).
Proof.
  intros s r.
  assert (classify (press "x") = KPrintable) as Hclass by (vm_compute; reflexivity).
  assert (caret_in_grid s) as Hcaret
    by (unfold caret_in_grid; vm_compute; split; [discriminate | reflexivity]).
  assert (slot_at (data s) (target s).1 (target s).2 = None) as Hslot
    by (vm_compute; reflexivity).
  assert (at_terminal s && negb (isOver s) = true) as Hterminal
    by (vm_compute; reflexivity).
  pose proof (handleKey_missing_slot Example.host (press "x") Example.restarted []
                Hclass Hcaret Hslot) as Hkey.
  cbv zeta in Hkey. fold s in Hkey. rewrite Hterminal in Hkey. exact Hkey.
Defined.

(** C8, counterexample. The grid of a text that is one space has two words
    and no real slot; the total is the length of the text, 1. *)
Lemma total_of_blank_text :
  let s := Engine.state Example.blank in
  len (data s) = 2
  ∧ len (real_slots (data s)) = 0
  ∧ total (Engine.result_of s) = 1.
Proof. repeat split; reflexivity. Qed.

(** C9. Escape ends a game with two subscribers of each kind, the first of
    each throwing. Both state subscribers are called at each notification
    and the errors logged; the first game-over subscriber is called, its
    error leaves [handleKey], and the second one is never called. The state
    is over all the same. *)
Theorem game_over_subscriber_unguarded :
  let r := Engine.handleKey Example.host (press "Escape") Example.subscribed [] in
  completion_of r = Throw (Thrown "over-1")
  ∧ world_of r
    = ["clearInterval"; "state-1"; "console.error"; "state-2";
       "state-1"; "console.error"; "state-2"; "over-1"]
  ∧ ("over-2" ∉ world_of r)
  ∧ isOver (Engine.state (engine_of r)) = true
  ∧ isRunning (Engine.state (engine_of r)) = false.
Proof.
  repeat split; try reflexivity.
  vm_compute. intros Hin. repeat (apply elem_of_cons in Hin as [Heq|Hin]; [discriminate |]).
  by apply elem_of_nil in Hin.
Qed.

(** [start()] on a game that waits and on a game that runs. *)
Lemma start_frame_witness :
  (∃ id w',
     Engine.start Example.host Example.ready []
     = (Normal (),
        with_state Example.ready
          {| text := "cat dog";
             data := data (Engine.state Example.ready);
             timeLimit := None;
             counter := 0;
             isRunning := true;
             isOver := false;
             currentPos := {| Coord.word := 0; Coord.letter := 0 |} |}
          (Some id),
        w'))
  ∧ Engine.start Example.host Example.letter_for_space []
    = (Normal (), Example.letter_for_space, []).
Proof.
  split.
  - apply (proj1 (start_frame Example.host Example.ready [])). reflexivity.
  - apply (proj2 (start_frame Example.host Example.letter_for_space [])). reflexivity.
Defined.

(** ** The hook *)

Lemma hook_count_word (word : list ILetterData) (c i : Z) :
  fold_left Hook.count_slot word (c, i)
  = (c + len (filter (λ s, status s = Some Correct) word),
     i + len (filter (λ s, status s = Some Incorrect) word)).
Proof.
  revert c i. induction word as [|slot word IH]; intros c i; simpl.
  - unfold len; simpl. triple_eq.
  - unfold Hook.count_slot at 1.
    destruct (status slot) as [[]|] eqn:Hst; rewrite IH;
      rewrite !filter_cons, Hst; repeat case_decide; try done;
      unfold len; simpl; triple_eq.
Qed.

Lemma hook_count_grid (grid : list (list ILetterData)) (c i : Z) :
  fold_left Hook.count_word grid (c, i)
  = (c + len (filter (λ s, status s = Some Correct) (concat grid)),
     i + len (filter (λ s, status s = Some Incorrect) (concat grid))).
Proof.
  revert c i. induction grid as [|word grid IH]; intros c i; simpl.
  - unfold len; simpl. triple_eq.
  - change (Hook.count_word (c, i) word) with (fold_left Hook.count_slot word (c, i)).
    rewrite hook_count_word, IH.
    rewrite !filter_app. unfold len. rewrite !length_app. triple_eq.
Qed.

(** X26. The result of the hook, when the word of the caret exists: the counts
    run over every slot, placeholders included; the accuracy is the formula
    of the engine on these counts, and the total is the length of the text. *)
Lemma hook_result_accuracy (game : IGame) (r : IGameResult) :
  Hook.result game = Some r →
  correct r = len (filter (λ s, status s = Some Correct) (concat (data game)))
  ∧ incorrect r = len (filter (λ s, status s = Some Incorrect) (concat (data game)))
  ∧ accuracy r = JS.of_Z (accuracy_formula (correct r) (incorrect r))
  ∧ 0 ≤ accuracy_formula (correct r) (incorrect r) ≤ 100
  ∧ total r = str_len (text game).
Proof.
  unfold Hook.result. destruct (at_index _ _) as [current|]; [| discriminate].
  rewrite hook_count_grid. cbv beta iota zeta. rewrite !Z.add_0_l.
  intros Hr. apply (inj Some) in Hr. subst r. cbn [correct incorrect total accuracy].
  repeat split; try reflexivity.
  - unfold accuracy_formula. case_decide; [done |]. rewrite js_div_of_Z; done.
  - apply accuracy_formula_bounds; unfold len; lia.
  - apply accuracy_formula_bounds; unfold len; lia.
Qed.

(** X27. The hook hands a key to its handler only while the game runs and is not
    over. *)
Lemma hook_keydown_not_running (e : KeyboardEvent) (game : IGame) :
  isRunning game = false ∨ isOver game = true →
  Hook.keydown e game = Hook.Updated game.
Proof.
  intros Hidle. unfold Hook.keydown, Hook.keydownListenerAttached, Hook.live.
  destruct Hidle as [-> | ->]; [done |]. by rewrite andb_false_r.
Qed.

(** X28. The handler of the hook meets a missing slot with a [TypeError]. *)
Lemma hook_handleKeyDown_missing_slot (e : KeyboardEvent) (game : IGame) :
  key e ≠ "Backspace" → Hook.is_space e = false →
  slot_at (data game) (target game).1 (target game).2 = None →
  Hook.handleKeyDown e game = Hook.Raises.
Proof.
  intros Hback Hspace. unfold Hook.handleKeyDown, target, slot_at.
  rewrite (bool_decide_eq_false_2 _ Hback), Hspace.
  destruct (at_index (data game) (Coord.word (currentPos game))) as [word|];
    [| done].
  destruct (bool_decide (len word = Coord.letter (currentPos game))); cbn;
    intros Hslot.
  - destruct (at_index (data game) _) as [word'|]; [| done]. by rewrite Hslot.
  - destruct (at_index (data game) _) as [word'|]; [| done]. by rewrite Hslot.
Qed.

(** The handler of the hook marks a placeholder as the engine does. *)
Lemma hook_placeholder_marked_by_letter :
  slot_at (data Example.hook_letter_for_space) 0 3
  = Some {| letter := ""; typed := true; status := Some Incorrect |}.
Proof. vm_compute. reflexivity. Qed.

(** C3. The rate of the hook comes from the word of the caret and the raw
    counter. For a game on "cat dog" that is over after six seconds with
    every letter typed wrong it is 10, where the specified formula gives 0;
    for a game typed right within the first second it is infinite, where the
    specified formula gives 72. *)
Theorem hook_result_wpm_from_caret :
  (∃ r, Hook.result Example.hook_all_wrong = Some r
        ∧ isOver Example.hook_all_wrong = true
        ∧ counter Example.hook_all_wrong = 6
        ∧ correct r = 0
        ∧ wpm r = JS.of_Z 10
        ∧ wpm_formula 0 6 = 0)
  ∧ (∃ r, Hook.result Example.hook_instant = Some r
          ∧ isOver Example.hook_instant = true
          ∧ counter Example.hook_instant = 0
          ∧ correct r = 6
          ∧ wpm r = JS.PosInf
          ∧ wpm_formula 6 0 = 72).
Proof.
  split; eexists; (split; [vm_compute; reflexivity |]);
    repeat split; vm_compute; reflexivity.
Qed.

(** The state of [Example.hook_late_limit] after further seconds. *)
Lemma hook_late_limit_seconds (n : nat) :
  Nat.iter n Hook.second Example.hook_late_limit
  = {| text := "cat dog";
       data := Hook.createTextdata "cat dog";
       timeLimit := Some 15;
       counter := 16 + Z.of_nat n;
       isRunning := true;
       isOver := false;
       currentPos := {| Coord.word := 0; Coord.letter := 0 |} |}.
Proof.
  induction n as [|n IH].
  - vm_compute. reflexivity.
  - rewrite Nat.iter_succ, IH.
    unfold Hook.second, Hook.countSecond, Hook.endEffect, Hook.endCondition, Hook.live.
    cbn -[Z.add Z.of_nat].
    rewrite bool_decide_eq_false_2 by (intros [=]; lia).
    cbn -[Z.add Z.of_nat]. f_equal. lia.
Qed.

(** C5. The end condition of the hook tests [counter === timeLimit]. A game
    whose counter has passed the limit (the limit was lowered to 15 after 16
    seconds) is not ended by the effect, and no later second ends it. *)
Theorem hook_limit_passed_never_ends :
  timeLimit Example.hook_late_limit = Some 15
  ∧ counter Example.hook_late_limit = 16
  ∧ Hook.endEffect Example.hook_late_limit = Example.hook_late_limit
  ∧ ∀ n : nat,
      isRunning (Nat.iter n Hook.second Example.hook_late_limit) = true
      ∧ isOver (Nat.iter n Hook.second Example.hook_late_limit) = false.
Proof.
  repeat split; try (vm_compute; reflexivity);
    by rewrite hook_late_limit_seconds.
Qed.

(** ** The grid and the text *)

Lemma engine_createTextdata_rows (text : string) :
  Engine.createTextdata text = rows (split_space text).
Proof.
  unfold Engine.createTextdata.
  assert (∀ (ws : list string) (k : nat),
            imap (λ (i : nat) (word : string),
                    if decide (Z.of_nat (k + i) ≠ Z.of_nat (k + length ws) - 1)
                    then (letterData <$> split_chars word)
                           ++ [ {| letter := ""; typed := false; status := None |} ]
                    else letterData <$> split_chars word) ws
            = rows ws) as Hrows.
  { induction ws as [|word rest IH]; intros k; [reflexivity |].
    rewrite imap_cons. cbn [rows length].
    destruct rest as [|word' rest].
    - cbn. case_decide; [lia | reflexivity].
    - case_decide; [| cbn [length] in *; lia].
      f_equal. rewrite <- (IH (S k)). apply imap_ext. intros i x _. cbn [length compose].
      repeat case_decide; try reflexivity; lia. }
  rewrite <- (Hrows (split_space text) 0%nat). apply imap_ext. intros i word _.
  unfold len. cbn. reflexivity.
Qed.

Lemma unsplit_split_space (text : string) : unsplit (split_space text) = text.
Proof.
  induction text as [|c rest IH]; [reflexivity |].
  cbn [split_space]. destruct (Ascii.eqb_spec c Ascii.Space) as [->|Hc].
  - pose proof (split_space_nonempty rest) as Hne.
    cbn [unsplit]. destruct (split_space rest) as [|w ws]; [done |].
    by rewrite IH.
  - destruct (split_space rest) as [|w ws] eqn:Hsplit.
    + by destruct (split_space_nonempty rest).
    + rewrite <- IH. by destruct ws.
Qed.

Lemma append_assoc (a b c : string) : (a +:+ b) +:+ c = a +:+ (b +:+ c).
Proof.
  induction a as [|x a IH]; [reflexivity |].
  change (String x ((a +:+ b) +:+ c) = String x (a +:+ (b +:+ c))). by rewrite IH.
Qed.

Lemma str_len_append (a b : string) : str_len (a +:+ b) = str_len a + str_len b.
Proof.
  unfold str_len. induction a as [|x a IH].
  - change ("" +:+ b) with b. cbn [String.length]. lia.
  - change (String x a +:+ b) with (String x (a +:+ b)). cbn [String.length]. lia.
Qed.

Lemma spaces_append (a b : string) : spaces (a +:+ b) = spaces a + spaces b.
Proof.
  induction a as [|x a IH]; [reflexivity |].
  change (String x a +:+ b) with (String x (a +:+ b)). cbn [spaces]. lia.
Qed.

Lemma slots_text_app (l k : list ILetterData) :
  foldr String.append "" (slot_text <$> (l ++ k))
  = foldr String.append "" (slot_text <$> l) +:+ foldr String.append "" (slot_text <$> k).
Proof.
  induction l as [|x l IH]; [reflexivity |].
  cbn [app fmap list_fmap foldr]. by rewrite IH, append_assoc.
Qed.

Lemma letters_of_text (word : string) :
  foldr String.append "" (slot_text <$> letters_of word) = word.
Proof.
  unfold letters_of. induction word as [|c rest IH]; [reflexivity |].
  cbn. by rewrite IH.
Qed.

Lemma grid_text_rows (words : list string) : grid_text (rows words) = unsplit words.
Proof.
  unfold grid_text. induction words as [|word rest IH]; [reflexivity |].
  destruct rest as [|word' rest].
  - cbn [rows concat]. rewrite app_nil_r. apply letters_of_text.
  - change (rows (word :: word' :: rest))
      with ((letters_of word ++ [placeholder]) :: rows (word' :: rest)).
    cbn [concat unsplit]. rewrite !slots_text_app, IH, letters_of_text.
    by rewrite append_assoc.
Qed.

Lemma grid_text_createTextdata (text : string) :
  grid_text (Engine.createTextdata text) = text.
Proof.
  by rewrite engine_createTextdata_rows, grid_text_rows, unsplit_split_space.
Qed.

Lemma split_space_no_space (text : string) :
  Forall (λ word, spaces word = 0) (split_space text).
Proof.
  induction text as [|c rest IH]; [by repeat constructor |].
  cbn [split_space]. destruct (Ascii.eqb c Ascii.Space) eqn:Hc.
  - by constructor.
  - destruct (split_space rest) as [|w ws].
    + constructor; [| constructor]. cbn. rewrite Hc. lia.
    + inversion_clear IH as [|? ? Hw Hws]. constructor; [| done].
      cbn. rewrite Hc. lia.
Qed.

Lemma letters_of_plain (word : string) :
  spaces word = 0 → Forall plain_slot (letters_of word).
Proof.
  unfold letters_of. induction word as [|c rest IH]; intros Hsp; [constructor |].
  cbn in Hsp. destruct (Ascii.eqb_spec c Ascii.Space) as [->|Hc].
  - assert (0 ≤ spaces rest) by (clear; induction rest as [|x r IH']; cbn; [lia |];
                                  destruct (Ascii.eqb x Ascii.Space); lia).
    lia.
  - cbn. constructor; [right; by exists c |]. apply IH. lia.
Qed.

Lemma rows_plain (words : list string) :
  Forall (λ word, spaces word = 0) words → Forall plain_slot (concat (rows words)).
Proof.
  induction 1 as [|word rest Hword Hrest IH]; [constructor |].
  destruct rest as [|word' rest].
  - cbn [rows concat]. rewrite app_nil_r. by apply letters_of_plain.
  - change (rows (word :: word' :: rest))
      with ((letters_of word ++ [placeholder]) :: rows (word' :: rest)).
    cbn [concat]. rewrite !Forall_app. split_and!; [by apply letters_of_plain | | done].
    constructor; [by left | constructor].
Qed.

(** On plain slots the text has one character for each slot and one space
    for each placeholder. *)
Lemma plain_slots_text (l : list ILetterData) :
  Forall plain_slot l →
  str_len (foldr String.append "" (slot_text <$> l)) = len l
  ∧ spaces (foldr String.append "" (slot_text <$> l))
    = len l - len (filter (λ s, letter s ≠ "") l).
Proof.
  induction 1 as [|slot l Hslot Hl [IHlen IHsp]]; [done |].
  cbn [fmap list_fmap foldr]. rewrite str_len_append, spaces_append, IHlen, IHsp.
  rewrite filter_cons. unfold slot_text, len in *.
  destruct Hslot as [Hph | (c & Hc & Hreal)].
  - rewrite Hph. rewrite decide_True by done. rewrite decide_False by tauto.
    unfold str_len. cbn. lia.
  - rewrite Hreal. rewrite decide_False by done. rewrite decide_True by done.
    unfold str_len. cbn. destruct (Ascii.eqb_spec c Ascii.Space); [done |]. lia.
Qed.

Lemma real_slots_createTextdata (text : string) :
  len (real_slots (Engine.createTextdata text)) = str_len text - spaces text.
Proof.
  pose proof (rows_plain _ (split_space_no_space text)) as Hplain.
  rewrite <- engine_createTextdata_rows in Hplain.
  destruct (plain_slots_text _ Hplain) as [Hlen Hsp].
  fold (grid_text (Engine.createTextdata text)) in Hlen, Hsp.
  rewrite grid_text_createTextdata in Hlen, Hsp.
  unfold real_slots. lia.
Qed.

(** X1. The grid of the engine holds the text: the letters of its slots read
    in order, each placeholder read as a space, spell the text it was built
    from; it has one slot for each character of the text, and its real slots
    are as many as the characters that are not spaces. *)
Theorem engine_createTextdata_text (text : string) :
  grid_text (Engine.createTextdata text) = text
  ∧ len (concat (Engine.createTextdata text)) = str_len text
  ∧ len (real_slots (Engine.createTextdata text)) = str_len text - spaces text.
Proof.
  split_and!; [apply grid_text_createTextdata | | apply real_slots_createTextdata].
  pose proof (rows_plain _ (split_space_no_space text)) as Hplain.
  rewrite <- engine_createTextdata_rows in Hplain.
  destruct (plain_slots_text _ Hplain) as [Hlen _].
  fold (grid_text (Engine.createTextdata text)) in Hlen.
  by rewrite grid_text_createTextdata in Hlen.
Qed.

(** ** A new game *)

Lemma rows_unmarked (words : list string) : Forall unmarked (concat (rows words)).
Proof.
  assert (∀ word, Forall unmarked (letters_of word)) as Hword.
  { intros word. eapply Forall_impl; [apply letters_of_real |]. cbn. intros ? (_ & ? & ?).
    by split. }
  induction words as [|word rest IH]; [constructor |].
  destruct rest as [|word' rest].
  - cbn [rows concat]. by rewrite app_nil_r.
  - change (rows (word :: word' :: rest))
      with ((letters_of word ++ [placeholder]) :: rows (word' :: rest)).
    cbn [concat]. rewrite !Forall_app. split_and!; [done | | done].
    by repeat constructor.
Qed.

Lemma count_status_unmarked (st : Status) (grid : list (list ILetterData)) :
  Forall unmarked (concat grid) → count_status st grid = 0.
Proof.
  unfold count_status, real_slots. generalize (concat grid). intros l Hl.
  induction Hl as [|slot l [_ Hst] Hl IH]; [done |].
  rewrite filter_cons. case_decide; [| done].
  rewrite filter_cons. rewrite decide_False; [done | by rewrite Hst].
Qed.

(** X13. [createNewGame] starts from scratch whatever the engine held: the
    call returns, the grid is built from the generated text and carries no
    mark, the caret is at the origin, the counter at 0, the game neither
    running nor over, and the timer of a running game is released. The
    result of the new game counts nothing and its total is the number of
    characters of the text that are not spaces (the length of a text of
    spaces only). *)
Theorem createNewGame_fresh {W E} (host : Host W E) (textSize timeLimit : option Z)
    (eng : @Engine.TypingEngine W E) (w : W) :
  let r := Engine.createNewGame host textSize timeLimit eng w in
  let s := Engine.state (engine_of r) in
  completion_of r = Normal ()
  ∧ s = {| text := (generateText host (default 100 textSize) w).1;
           data := Engine.createTextdata (text s);
           timeLimit := timeLimit;
           counter := 0;
           isRunning := false;
           isOver := false;
           currentPos := {| Coord.word := 0; Coord.letter := 0 |} |}
  ∧ Forall unmarked (concat (data s))
  ∧ Engine.intervalId (engine_of r)
    = (if isRunning (Engine.state eng) then None else Engine.intervalId eng)
  ∧ Engine.result_of s
    = {| correct := 0;
         incorrect := 0;
         total := if decide (str_len (text s) = spaces (text s))
                  then str_len (text s) else str_len (text s) - spaces (text s);
         wpm := JS.of_Z 0;
         accuracy := JS.of_Z 0 |}.
Proof.
  intros r s. subst s r.
  destruct (createNewGame_run host textSize timeLimit eng w)
    as (txt & id & w' & -> & -> & ->).
  cbn [completion_of engine_of with_state fst snd Engine.state Engine.intervalId text].
  set (txt := (generateText host (default 100 textSize) w).1).
  assert (Forall unmarked (concat (Engine.createTextdata txt))) as Hunmarked
    by (rewrite engine_createTextdata_rows; apply rows_unmarked).
  split_and!; try done.
  rewrite engine_result_of. cbn [data text counter].
  rewrite !count_status_unmarked by done.
  rewrite real_slots_createTextdata.
  f_equal.
  assert (0 ≤ spaces txt ≤ str_len txt) as Hsp.
  { clear. unfold str_len. induction txt as [|c rest IH]; cbn [spaces String.length]; [lia |].
    destruct (Ascii.eqb c Ascii.Space); lia. }
  repeat case_decide; lia.
Qed.

(** ** The extra properties of the engine, on the example sessions *)

(** A reached engine holds its timer while it runs. *)
Lemma reachable_timer_witness : timer_held Example.two_typed.
Proof.
  apply (reachable_timer Example.host).
  exists ([Engine.CreateNewGame None None; Engine.Start] ++ Example.keys ["c"; "a"]),
    [], ["setInterval"].
  vm_compute. reflexivity.
Defined.

(** A reached engine has its caret in the grid and takes any key. *)
Lemma reachable_safe_witness :
  caret_in_grid (Engine.state Example.restarted)
  ∧ ∀ e w, completion_of (Engine.handleKey Example.host e Example.restarted w)
           ≠ Throw TypeError.
Proof.
  apply (reachable_safe Example.host).
  exists ([Engine.CreateNewGame None None; Engine.Start]
          ++ Example.keys ["c"; "a"; "t"; " "; "d"; "o"; "g"] ++ [Engine.Start]),
    [], (Engine.run Example.host
           ([Engine.CreateNewGame None None; Engine.Start]
            ++ Example.keys ["c"; "a"; "t"; " "; "d"; "o"; "g"] ++ [Engine.Start])
           Engine.new_engine []).2.
  vm_compute. reflexivity.
Defined.

(** The tick that reaches a limit of two seconds. *)
Lemma tick_time_limit_witness :
  isOver (Engine.state (engine_of (Engine.tick Example.host Example.limited []))) = true
  ∧ isRunning (Engine.state (engine_of (Engine.tick Example.host Example.limited [])))
    = false.
Proof.
  assert (timeLimit (Engine.state Example.limited) = Some 2) as Hlimit
    by (vm_compute; reflexivity).
  assert (2 ≤ counter (Engine.state Example.limited) + 1) as Hle
    by (vm_compute; discriminate).
  destruct (tick_time_limit Example.host Example.limited [] 2 Hlimit ltac:(lia) Hle)
    as (_ & -> & Hover & Hrun & _).
  split; [exact Hover | exact Hrun].
Defined.

(** "t" typed after "ca", and taken back. *)
Lemma type_then_backspace_witness :
  engine_of (Engine.handleKey Example.host (press "Backspace")
               (engine_of (Engine.handleKey Example.host (press "t") Example.two_typed []))
               [])
  = Example.two_typed.
Proof.
  apply (type_then_backspace Example.host (press "t") (press "Backspace")
           {| letter := "t"; typed := false; status := None |}).
  - vm_compute. reflexivity.
  - reflexivity.
  - vm_compute. reflexivity.
  - vm_compute. reflexivity.
  - split; reflexivity.
  - vm_compute. discriminate.
Defined.

(** Space after "do" in the last word of "cat dog". *)
Lemma space_in_last_word_witness :
  currentPos (Engine.state (engine_of
     (Engine.handleKey Example.host (press " ") Example.last_word_typed [])))
  = {| Coord.word := len (data (Engine.state Example.last_word_typed)) - 1;
       Coord.letter := 0 |}.
Proof.
  apply (space_in_last_word Example.host (press " ") Example.last_word_typed []).
  - vm_compute. reflexivity.
  - vm_compute. reflexivity.
  - vm_compute. reflexivity.
  - vm_compute. reflexivity.
  - vm_compute. discriminate.
Defined.

(** The second state subscriber of [Example.subscribed] is called after the
    first one threw. *)
Lemma emitState_isolated_witness :
  Engine.emitState Example.host Example.subscribed []
  = (Normal (), Example.subscribed, ["state-1"; "console.error"; "state-2"]).
Proof.
  assert (Engine.onStateChangeCallbacks Example.subscribed
          = [] ++ faulty "state-1" :: [quiet "state-2"]) as Hcbs
    by (vm_compute; reflexivity).
  rewrite (emitState_isolated Example.host Example.subscribed [] []
             (faulty "state-1") [quiet "state-2"] Hcbs).
  vm_compute. reflexivity.
Defined.

(** The game-over subscribers of [Example.subscribed]. *)
Lemma endGame_throwing_subscriber_witness :
  completion_of (Engine.endGame Example.host Example.subscribed [])
  = Throw (Thrown "over-1").
Proof.
  apply (endGame_throwing_subscriber Example.host Example.subscribed []
           (faulty "over-1") [quiet "over-2"] "over-1").
  - vm_compute. reflexivity.
  - reflexivity.
Defined.

(** An "x" on the placeholder after "cat". *)
Lemma placeholder_mark_uncounted_witness :
  Engine.result_of (Engine.state (engine_of
     (Engine.handleKey Example.host (press "x") Example.word_typed [])))
  = Engine.result_of (Engine.state Example.word_typed).
Proof.
  apply (placeholder_mark_uncounted Example.host (press "x") placeholder).
  - vm_compute. reflexivity.
  - vm_compute. reflexivity.
  - reflexivity.
Defined.

(** ** The timer of the page *)

Lemma read_js_String (n : Z) : read_number (Page.js_String n) = Some n.
Proof.
  unfold read_number, Page.js_String.
  destruct (decide (n = 0)) as [->|Hn]; [reflexivity |].
  rewrite NilZero.isi.
  - cbn. by rewrite DecimalZ.of_to.
  - destruct n; try done; cbn; intros [= Hnil];
      by apply (DecimalPos.Unsigned.to_uint_nonnil p).
  - destruct n; try done; cbn; intros [= Hnil];
      by apply (DecimalPos.Unsigned.to_uint_nonnil p).
Qed.

(** The decimal string of a number that is not negative starts with a
    digit. *)
Lemma js_String_digits (n : Z) :
  0 ≤ n →
  ∃ a rest d, Page.js_String n = String a rest
              ∧ NilEmpty.uint_of_string (String a rest) = Some d
              ∧ Z.of_uint d = n.
Proof.
  intros Hn. pose proof (read_js_String n) as Hread.
  unfold read_number, NilZero.int_of_string in Hread.
  destruct (Page.js_String n) as [|a rest] eqn:Hstr; [done |].
  exists a, rest.
  destruct (Ascii.eqb_spec a "-"%char) as [->|Hminus].
  - exfalso. unfold Page.js_String in Hstr.
    destruct n as [|p|p]; [done | | lia].
    cbn in Hstr. unfold NilZero.string_of_uint in Hstr.
    pose proof (DecimalPos.Unsigned.to_uint_nonnil p) as Hnil.
    destruct (Pos.to_uint p); try done; cbn in Hstr; discriminate.
  - unfold NilZero.uint_of_string in Hread.
    destruct (NilEmpty.uint_of_string (String a rest)) as [d|]; [| done].
    exists d. split_and!; try done. cbn -[Z.of_uint] in Hread. congruence.
Qed.

Lemma read_padStart (n : Z) (width : nat) :
  0 ≤ n → read_number (Page.padStart (Page.js_String n) width "0"%char) = Some n.
Proof.
  intros Hn. destruct (js_String_digits n Hn) as (a & rest & d & -> & Hd & Hval).
  unfold Page.padStart. generalize (width - String.length (String a rest))%nat.
  intros k.
  assert (∃ d', NilEmpty.uint_of_string (Nat.iter k (String "0"%char) (String a rest))
                = Some d' ∧ Z.of_uint d' = n) as (d' & Hd' & Hval').
  { induction k as [|k (d' & Hd' & Hval')]; [by exists d |].
    exists (Decimal.D0 d'). rewrite Nat.iter_succ.
    cbn [NilEmpty.uint_of_string]. rewrite Hd'. by split. }
  unfold read_number, NilZero.int_of_string.
  destruct k as [|k].
  - cbn [Nat.iter nat_rect] in *.
    destruct (Ascii.eqb_spec a "-"%char) as [->|_];
      [cbn in Hd; destruct (NilEmpty.uint_of_string rest); discriminate |].
    unfold NilZero.uint_of_string. rewrite Hd'. cbn -[Z.of_uint]. by rewrite Hval'.
  - rewrite Nat.iter_succ in *. cbn [Ascii.eqb Bool.eqb].
    unfold NilZero.uint_of_string. rewrite Hd'. cbn -[Z.of_uint]. by rewrite Hval'.
Qed.

(** X14. The timer shows the counter: for a counter that is not negative,
    the minutes field spells [counter / 60] and the seconds field spells the
    rest, so that the two fields give the counter back. *)
Theorem timer_round_trip (counter : Z) :
  0 ≤ counter →
  ∃ m s, read_number (Page.timeInMin counter) = Some m
         ∧ read_number (Page.timeInSec counter) = Some s
         ∧ 0 ≤ s < 60 ∧ 60 * m + s = counter.
Proof.
  intros Hc. exists (counter / 60), (Z.rem counter 60).
  unfold Page.timeInMin, Page.timeInSec.
  rewrite Z.rem_mod_nonneg by lia.
  rewrite !read_padStart.
  - split_and!; try done; pose proof (Z.mod_pos_bound counter 60);
      pose proof (Z.div_mod counter 60); lia.
  - apply Z.mod_pos_bound. lia.
  - apply Z.div_pos; lia.
Qed.

Lemma length_padStart (s : string) (width : nat) (c : Ascii.ascii) :
  String.length (Page.padStart s width c) = (width `max` String.length s)%nat.
Proof.
  unfold Page.padStart.
  assert (∀ k, String.length (Nat.iter k (String c) s) = (k + String.length s)%nat) as ->.
  { induction k as [|k IH]; [done |]. rewrite Nat.iter_succ. cbn. by rewrite IH. }
  lia.
Qed.

Lemma js_String_short (n : Z) :
  0 ≤ n < 100 → (String.length (Page.js_String n) ≤ 2)%nat.
Proof.
  intros Hn.
  assert (Forall (λ k, (String.length (Page.js_String k) ≤ 2)%nat) (seqZ 0 100)) as Hall.
  { apply (bool_decide_unpack _). vm_compute. exact I. }
  rewrite Forall_forall in Hall. apply Hall, elem_of_seqZ. lia.
Qed.

(** X15. The timer keeps its width: for a counter from 0 up to 99 minutes
    and 59 seconds both fields have exactly two characters; the seconds field
    has two for every counter that is not negative, and the minutes field
    never fewer than two. *)
Theorem timer_width (counter : Z) :
  0 ≤ counter →
  String.length (Page.timeInSec counter) = 2%nat
  ∧ (2 ≤ String.length (Page.timeInMin counter))%nat
  ∧ (counter < 6000 → String.length (Page.timeInMin counter) = 2%nat).
Proof.
  intros Hc. unfold Page.timeInMin, Page.timeInSec. rewrite !length_padStart.
  split_and!; [| lia |].
  - rewrite Z.rem_mod_nonneg by lia.
    pose proof (Z.mod_pos_bound counter 60).
    pose proof (js_String_short (counter `mod` 60)). lia.
  - intros Hlt.
    assert (0 ≤ counter / 60 < 100) as Hm
      by (split; [apply Z.div_pos; lia | apply Z.div_lt_upper_bound; lia]).
    pose proof (js_String_short _ Hm). lia.
Qed.

(** Two minutes and five seconds. *)
Lemma timer_round_trip_witness :
  ∃ m s, read_number (Page.timeInMin 125) = Some m
         ∧ read_number (Page.timeInSec 125) = Some s
         ∧ 0 ≤ s < 60 ∧ 60 * m + s = 125.
Proof. apply (timer_round_trip 125). lia. Defined.

Lemma timer_width_witness :
  String.length (Page.timeInSec 125) = 2%nat
  ∧ (2 ≤ String.length (Page.timeInMin 125))%nat
  ∧ (125 < 6000 → String.length (Page.timeInMin 125) = 2%nat).
Proof. apply (timer_width 125). lia. Defined.

(** ** The lists of subscribers *)

(** X16. Unsubscribing removes every registration of the subscriber and no
    other: a subscriber that was pushed twice is gone after one call of its
    unsubscribe closure, the others stay in their order, and undoing a
    subscription of a subscriber that was not yet in the list gives the list
    back. *)
Theorem unsubscribe_removes {Cb : Type} `{EqDecision Cb} (cb : Cb) (cbs : list Cb) :
  (cb ∉ Registry.unsubscribe cb (Registry.subscribe cb (Registry.subscribe cb cbs)))
  ∧ Registry.unsubscribe cb (Registry.subscribe cb cbs) = Registry.unsubscribe cb cbs
  ∧ (∀ c, c ≠ cb → c ∈ Registry.unsubscribe cb cbs ↔ c ∈ cbs)
  ∧ Registry.unsubscribe cb cbs `sublist_of` cbs
  ∧ (cb ∉ cbs → Registry.unsubscribe cb (Registry.subscribe cb cbs) = cbs).
Proof.
  unfold Registry.unsubscribe, Registry.subscribe. split_and!.
  - rewrite list_elem_of_filter. tauto.
  - rewrite filter_app, filter_cons, decide_False by tauto.
    cbn. by rewrite app_nil_r.
  - intros c Hc. rewrite list_elem_of_filter. tauto.
  - apply sublist_filter.
  - intros Hnew. rewrite filter_app, filter_cons, decide_False by tauto.
    cbn. rewrite app_nil_r.
    induction cbs as [|c cbs IH]; [done |].
    rewrite not_elem_of_cons in Hnew. destruct Hnew as [Hc Hnew].
    rewrite filter_cons, decide_True by done. by rewrite IH.
Qed.

Lemma unsubscribe_removes_witness :
  Registry.unsubscribe 1%nat (Registry.subscribe 1%nat [2%nat; 3%nat]) = [2%nat; 3%nat].
Proof.
  apply (unsubscribe_removes 1%nat [2%nat; 3%nat]).
  rewrite !not_elem_of_cons. split_and!; [lia | lia | apply not_elem_of_nil].
Defined.

(** ** More of the hook *)

Lemma hook_rows_nonempty (text : string) (i : nat) (row : list ILetterData) :
  Hook.createTextdata text !! i = Some row → row ≠ [].
Proof.
  intros Hrow. destruct (hook_createTextdata_shape text) as [Hlen Hrows].
  destruct (split_space text !! i) as [word|] eqn:Hword.
  - rewrite (Hrows i word Hword) in Hrow. injection Hrow as <-.
    case_decide as Hi; [| by destruct (letters_of word)].
    destruct word; [done | discriminate].
  - apply lookup_ge_None in Hword. apply lookup_lt_Some in Hrow. lia.
Qed.

Lemma hook_seconds (txt : string) (limit : Z) (n : nat) :
  0 < limit →
  Nat.iter n Hook.second
    (Hook.startGame (Hook.createNewGame txt (Some limit) Hook.initialState))
  = {| text := txt;
       data := Hook.createTextdata txt;
       timeLimit := Some limit;
       counter := Z.min (Z.of_nat n) limit;
       isRunning := bool_decide (Z.of_nat n < limit);
       isOver := bool_decide (limit ≤ Z.of_nat n);
       currentPos := {| Coord.word := 0; Coord.letter := 0 |} |}.
Proof.
  intros Hlimit. induction n as [|n IH].
  - cbn. rewrite bool_decide_eq_true_2, bool_decide_eq_false_2 by lia.
    f_equal. lia.
  - rewrite Nat.iter_succ, IH. clear IH.
    unfold Hook.second, Hook.countSecond, Hook.endEffect, Hook.live, Hook.endCondition.
    cbn [isRunning isOver counter timeLimit data currentPos text
         Coord.word Coord.letter truthy].
    assert (bool_decide (len <$> at_index (Hook.createTextdata txt) 0 = Some 0) = false)
      as Hfirst.
    { apply bool_decide_eq_false_2.
      destruct (at_index (Hook.createTextdata txt) 0) as [row|] eqn:Hrow;
        [| discriminate].
      apply at_index_Some in Hrow as [_ Hrow].
      apply hook_rows_nonempty in Hrow. destruct row; [done |].
      unfold len. cbn. intros [=]. }
    destruct (decide (Z.of_nat n < limit)) as [Hlt|Hge].
    + rewrite (bool_decide_eq_true_2 (Z.of_nat n < limit)) by done.
      rewrite (bool_decide_eq_false_2 (limit ≤ Z.of_nat n)) by lia.
      cbn [andb negb isRunning isOver counter timeLimit data currentPos text
           Coord.word Coord.letter truthy].
      rewrite Hfirst, andb_false_r, orb_false_r.
      destruct (Z.eqb_spec limit 0) as [|_]; [lia |]. cbn [negb andb].
      destruct (decide (Z.of_nat n + 1 = limit)) as [Hreach|Hnot].
      * rewrite (bool_decide_eq_true_2 (Some _ = Some _)) by (f_equal; lia).
        rewrite bool_decide_eq_false_2, bool_decide_eq_true_2 by lia.
        f_equal. lia.
      * rewrite (bool_decide_eq_false_2 (Some _ = Some _)) by (intros [=]; lia).
        rewrite bool_decide_eq_true_2, bool_decide_eq_false_2 by lia.
        f_equal. lia.
    + rewrite !(bool_decide_eq_false_2 (Z.of_nat n < limit)) by done.
      cbn [andb isRunning].
      rewrite ?(bool_decide_eq_false_2 (Z.of_nat n < limit)) by done.
      cbn [andb].
      rewrite ?(bool_decide_eq_false_2 (Z.of_nat (S n) < limit)) by lia.
      rewrite ?(bool_decide_eq_true_2 (limit ≤ Z.of_nat n)) by lia.
      rewrite ?(bool_decide_eq_true_2 (limit ≤ Z.of_nat (S n))) by lia.
      f_equal. lia.
Qed.

(** X17. The timer of the hook: a game created with a positive time limit and
    started counts one second at a time up to the limit, is over exactly when
    the limit is reached, and then stops counting. *)
Theorem hook_timer_ends_at_limit (txt : string) (limit : Z) (n : nat) :
  0 < limit →
  let game := Hook.startGame (Hook.createNewGame txt (Some limit) Hook.initialState) in
  let game' := Nat.iter n Hook.second game in
  counter game' = Z.min (Z.of_nat n) limit
  ∧ isRunning game' = bool_decide (Z.of_nat n < limit)
  ∧ isOver game' = bool_decide (limit ≤ Z.of_nat n)
  ∧ text game' = txt ∧ data game' = Hook.createTextdata txt
  ∧ currentPos game' = {| Coord.word := 0; Coord.letter := 0 |}
  ∧ timeLimit game' = Some limit.
Proof.
  intros Hlimit game game'. subst game' game. by rewrite hook_seconds.
Qed.

Lemma hook_timer_ends_at_limit_witness :
  counter (Nat.iter 40 Hook.second
             (Hook.startGame (Hook.createNewGame "cat dog" (Some 30) Hook.initialState)))
  = 30.
Proof.
  pose proof (hook_timer_ends_at_limit "cat dog" 30 40 ltac:(lia)) as [Hcounter _].
  rewrite Hcounter. reflexivity.
Defined.

(** X18. [startGame] of the hook on a game that is over, with no new game
    made first, gives a game that is running and over at once; no second is
    counted in it and no key reaches the handler. *)
Theorem hook_start_over_game_is_dead (game : IGame) :
  isRunning game = false → isOver game = true →
  let game' := Hook.startGame game in
  isRunning game' = true ∧ isOver game' = true
  ∧ Hook.second game' = game'
  ∧ ∀ e, Hook.keydown e game' = Hook.Updated game'.
Proof.
  intros Hrun Hover game'. subst game'. unfold Hook.startGame. rewrite Hrun.
  unfold Hook.second, Hook.countSecond, Hook.endEffect, Hook.keydown,
    Hook.keydownListenerAttached, Hook.live.
  cbn. by rewrite Hover.
Qed.

Lemma hook_start_over_game_is_dead_witness :
  Hook.second (Hook.startGame Example.hook_all_wrong)
  = Hook.startGame Example.hook_all_wrong.
Proof.
  apply (hook_start_over_game_is_dead Example.hook_all_wrong);
    vm_compute; reflexivity.
Defined.

(** X19. The start handlers of the page never produce that state: from a game
    that is not running, a click or Enter gives a game that is running and
    not over, and from a finished game it is a new one, on the new text, with
    the counter at 0, the caret at the origin and the selected limit. *)
Theorem page_start_is_live (txt : string) (limit : Z) (e : KeyboardEvent) (game : IGame) :
  isRunning game = false → key e = "Enter" →
  let game' := Page.handleStartGame txt limit e game in
  Page.handleOnClickStartGame txt limit game = game'
  ∧ isRunning game' = true ∧ isOver game' = false
  ∧ (isOver game = true →
     game' = {| text := txt;
                data := Hook.createTextdata txt;
                timeLimit := Some limit;
                counter := 0;
                isRunning := true;
                isOver := false;
                currentPos := {| Coord.word := 0; Coord.letter := 0 |} |})
  ∧ (isOver game = false →
     game' = {| text := text game; data := data game; timeLimit := timeLimit game;
                counter := counter game; isRunning := true; isOver := false;
                currentPos := currentPos game |}).
Proof.
  intros Hrun Henter game'. subst game'.
  unfold Page.handleStartGame, Page.handleOnClickStartGame, Hook.createNewGame,
    Hook.startGame.
  rewrite Hrun, Henter. cbn.
  destruct (isOver game) eqn:Hover; cbn; rewrite ?Hrun; cbn; rewrite ?Hover;
    split_and!; try done.
Qed.

Lemma page_start_is_live_witness :
  isRunning (Page.handleStartGame "dog cat" 15 (press "Enter") Example.hook_all_wrong)
  = true
  ∧ isOver (Page.handleStartGame "dog cat" 15 (press "Enter") Example.hook_all_wrong)
    = false.
Proof.
  pose proof (page_start_is_live "dog cat" 15 (press "Enter") Example.hook_all_wrong)
    as Hstart.
  destruct Hstart as (_ & Hrun & Hover & _); [vm_compute; reflexivity | reflexivity |].
  split; [exact Hrun | exact Hover].
Defined.

(** X20. [result] of the hook raises exactly when the word of the caret does
    not exist; so it does on the initial game, whose grid is empty, the guard
    on [isReady] never returning early. *)
Theorem hook_result_raises (game : IGame) :
  (Hook.result game = None
   ↔ at_index (data game) (Coord.word (currentPos game)) = None)
  ∧ (data game = [] → Hook.result game = None)
  ∧ Hook.result Hook.initialState = None.
Proof.
  assert (Hook.result game = None
          ↔ at_index (data game) (Coord.word (currentPos game)) = None) as Hiff.
  { unfold Hook.result. destruct (at_index _ _) as [current|]; [| done].
    destruct (fold_left _ _ _). split; discriminate. }
  split_and!; [exact Hiff | | reflexivity].
  intros Hempty. apply Hiff. rewrite Hempty. unfold at_index. by case_decide.
Qed.

Lemma letters_alter_slot (f : ILetterData → ILetterData) (w l : Z)
    (grid : list (list ILetterData)) (slot : ILetterData) :
  slot_at grid w l = Some slot → letter (f slot) = letter slot →
  letters (alter_index (alter_index f l) w grid) = letters grid.
Proof.
  unfold slot_at. intros Hslot Hletter.
  destruct (at_index grid w) as [row|] eqn:Hrow; [| done].
  set (g := λ y, {| letter := letter y; typed := typed (f y); status := status (f y) |}).
  assert (alter_index f l row = alter_index g l row) as Hinner.
  { unfold alter_index. case_decide; [| done].
    apply list_alter_ext; [| done]. intros y Hy.
    apply at_index_Some in Hslot as [_ Hslot]. rewrite Hslot in Hy.
    injection Hy as <-. unfold g. rewrite <- Hletter. by destruct (f slot). }
  assert (alter_index (alter_index f l) w grid = alter_index (alter_index g l) w grid)
    as ->.
  { unfold alter_index at 1 3. case_decide; [| done].
    apply list_alter_ext; [| done]. intros y Hy.
    apply at_index_Some in Hrow as [_ Hrow]. rewrite Hrow in Hy. by injection Hy as <-. }
  by apply letters_alter_index.
Qed.

(** X21. A key that the handler of the hook takes changes the caret and at
    most the marks of one slot: text, time limit, counter and the two flags
    stay, and so does the letter of every slot. *)
Theorem hook_handleKeyDown_frame (e : KeyboardEvent) (game game' : IGame) :
  Hook.handleKeyDown e game = Hook.Updated game' →
  text game' = text game ∧ timeLimit game' = timeLimit game
  ∧ counter game' = counter game
  ∧ isRunning game' = isRunning game ∧ isOver game' = isOver game
  ∧ letters (data game') = letters (data game).
Proof.
  unfold Hook.handleKeyDown, Hook.updateGameData.
  intros Hkey.
  repeat match type of Hkey with
         | context [bool_decide ?P] => destruct (bool_decide P)
         | context [Hook.is_space ?e] => destruct (Hook.is_space e)
         | context [match at_index ?l ?i with _ => _ end] =>
             let H := fresh "Hat" in destruct (at_index l i) eqn:H
         | _ => progress cbn in Hkey
         end;
    try discriminate;
    injection Hkey as <-; cbn; split_and!; try done.
  all: try (apply letters_alter_index; done).
  all: cbn [Coord.word Coord.letter] in *.
  all: repeat match goal with
              | H1 : ?x = Some _, H2 : ?x = Some _ |- _ =>
                  rewrite H1 in H2; injection H2 as <-
              end.
  all: eapply letters_alter_slot;
    [ unfold slot_at;
      match goal with
      | Hw : at_index (data _) ?w = Some ?row |- context [at_index (data _) ?w] =>
          rewrite Hw
      end; eassumption
    | reflexivity ].
Qed.

Lemma hook_handleKeyDown_frame_witness :
  ∃ game', Hook.handleKeyDown (press "c") (Example.hook_running 1) = Hook.Updated game'
           ∧ letters (data game') = letters (data (Example.hook_running 1)).
Proof.
  eexists. split; [vm_compute; reflexivity |].
  eapply (hook_handleKeyDown_frame (press "c") (Example.hook_running 1)).
  vm_compute. reflexivity.
Defined.

(** ** Stopping, resetting, constructing *)

(** X22. A stopped game is not resumed: [start()] after [stop()] returns with
    the game running and not over, a timer handle held and the counter back
    at 0, while the text, the grid with its marks, the time limit and the
    caret are those of the game that was stopped. *)
Theorem stop_then_start {W E} (host : Host W E) (eng : @Engine.TypingEngine W E)
    (w w' : W) :
  let s := Engine.state eng in
  let r := Engine.start host (engine_of (Engine.stop host eng w)) w' in
  completion_of r = Normal ()
  ∧ Engine.state (engine_of r)
    = {| text := text s; data := data s; timeLimit := timeLimit s;
         counter := 0; isRunning := true; isOver := false;
         currentPos := currentPos s |}
  ∧ is_Some (Engine.intervalId (engine_of r)).
Proof.
  intros s r. subst r. rewrite stop_engine.
  edestruct (start_run host) as (id & w1 & ->); [reflexivity |].
  cbn. split_and!; eauto.
Qed.

(** X23. [reset()] forgets the game whatever the engine held: it returns,
    the state is the initial one with the timer released, every key is then
    ignored and the result counts nothing, its total being 0. *)
Theorem reset_clears {W E} (host : Host W E) (eng : @Engine.TypingEngine W E) (w : W) :
  let r := Engine.reset host eng w in
  completion_of r = Normal ()
  ∧ engine_of r = with_state eng Engine.getInitialState None
  ∧ (∀ e w', Engine.handleKey host e (engine_of r) w' = (Normal (), engine_of r, w'))
  ∧ Engine.result_of (Engine.state (engine_of r))
    = {| correct := 0; incorrect := 0; total := 0;
         wpm := JS.of_Z 0; accuracy := JS.of_Z 0 |}.
Proof.
  intros r. subst r. destruct (reset_run host eng w) as [w1 ->].
  cbn [completion_of engine_of fst snd]. split_and!; try done.
  all: intros e w'; apply handleKey_guarded; by left.
Qed.

(** X24. A constructed engine waits: whatever the options, the constructor
    returns with the game neither running nor over, no timer handle, the
    caret at the origin and the counter at 0. The grid is built exactly when
    [autoCreateOnConstruct] is set; without it the time limit of the options
    is kept when it is not 0, and a text size alone changes nothing. *)
Theorem constructor_waits {W E} (host : Host W E)
    (opts : option Engine.TypingEngineOptions) (w : W) :
  let r := Engine.constructor host opts (@Engine.new_engine W E) w in
  let s := Engine.state (engine_of r) in
  completion_of r = Normal ()
  ∧ isRunning s = false ∧ isOver s = false
  ∧ Engine.intervalId (engine_of r) = None
  ∧ currentPos s = {| Coord.word := 0; Coord.letter := 0 |} ∧ counter s = 0
  ∧ match opts with
    | Some o =>
        if Engine.opt_autoCreateOnConstruct o
        then data s = Engine.createTextdata (text s)
             ∧ text s = (generateText host (default 100 (Engine.opt_textSize o)) w).1
             ∧ timeLimit s = Engine.opt_timeLimit o
        else data s = [] ∧ text s = ""
             ∧ timeLimit s = (if truthy (Engine.opt_timeLimit o)
                              then Engine.opt_timeLimit o else None)
    | None => s = Engine.getInitialState
    end.
Proof.
  intros r s. subst s r.
  unfold Engine.constructor, mbind, mret, Engine.M_bind, Engine.M_ret, Engine.bind,
    Engine.ret, Engine.modify.
  cbv beta iota.
  destruct opts as [[size limit auto]|]; [| by cbn].
  cbn [Engine.opt_autoCreateOnConstruct Engine.opt_textSize Engine.opt_timeLimit
       Engine.new_engine Engine.state Engine.intervalId
       Engine.onStateChangeCallbacks Engine.onGameOverCallbacks].
  destruct auto.
  - match goal with
    | |- context [Engine.createNewGame host ?a ?b ?c ?d] =>
        destruct (createNewGame_run host a b c d) as (txt & id & w' & -> & -> & ->)
    end.
    cbn. split_and!; try done.
  - destruct (truthy limit) eqn:Hlimit; destruct (truthy size); cbn;
      rewrite ?Hlimit; cbn; by split_and!.
Qed.

(** ** Witnesses of the properties above *)

Lemma engine_createTextdata_shape_witness :
  Engine.createTextdata "cat dog" !! 1%nat = Some (letters_of "dog").
Proof.
  apply (proj2 (engine_createTextdata_shape "cat dog") 1%nat "dog"). reflexivity.
Defined.

Lemma hook_result_accuracy_witness :
  ∃ r, Hook.result Example.hook_all_wrong = Some r
       ∧ total r = str_len (text Example.hook_all_wrong)
       ∧ 0 ≤ accuracy_formula (correct r) (incorrect r) ≤ 100.
Proof.
  eexists. split; [vm_compute; reflexivity |].
  match goal with
  | |- total ?r = _ ∧ _ =>
      pose proof (hook_result_accuracy Example.hook_all_wrong r) as Hacc
  end.
  destruct Hacc as (_ & _ & _ & Hbounds & Htotal); [vm_compute; reflexivity |].
  split; [exact Htotal | exact Hbounds].
Defined.

Lemma hook_keydown_not_running_witness :
  Hook.keydown (press "c") Example.hook_all_wrong = Hook.Updated Example.hook_all_wrong.
Proof.
  apply (hook_keydown_not_running (press "c") Example.hook_all_wrong).
  left. vm_compute. reflexivity.
Defined.

Lemma hook_handleKeyDown_missing_slot_witness :
  Hook.handleKeyDown (press "x") Example.hook_all_wrong = Hook.Raises.
Proof.
  apply (hook_handleKeyDown_missing_slot (press "x") Example.hook_all_wrong).
  - discriminate.
  - reflexivity.
  - vm_compute. reflexivity.
Defined.
